(** * Convertify icon generators

  A shallow embedding of the two icon scripts of the repository,
  [generate-icons.py] (module [Full]) and
  [Scripts/generate-fallback-icons.py] (module [Fallback]), together with
  the parts of Python and of the imaging library they rely on:

  - [Py]: exceptions, the [int]/[float] numeric tower (binary64 through
    the IEEE-754 specification of the Standard Library), [range];
  - [PIL]: rasters with a mode, a size and a pixel buffer, and the
    operations the scripts call;
  - [OS]: a file tree, standard output and the external packer.

    Definitions come first, theorems follow. *)

From stdpp Require Import base list gmap strings pretty.
From Stdlib Require Import ZArith Lia SpecFloat.

Open Scope Z_scope.

(* ===================================================================== *)
(** * Python: exceptions, numbers, ranges                                 *)
(* ===================================================================== *)

Module Py.

Inductive exn_kind :=
| ZeroDivisionError | OverflowError | ValueError | IndexError
| FileNotFoundError | FileExistsError | NotADirectoryError
| IsADirectoryError | UnidentifiedImageError.

(** An exception is its class and its message ([str(e)]). *)
Definition exn : Type := exn_kind * string.

Inductive result (A : Type) : Type :=
| Ok (a : A)
| Raise (e : exn).
Arguments Ok {A} a.
Arguments Raise {A} e.

#[export] Instance result_ret : MRet result := λ A a, Ok a.
#[export] Instance result_bind : MBind result := λ A B f m,
  match m with Ok a => f a | Raise e => Raise e end.
#[export] Instance result_fmap : FMap result := λ A B f m,
  match m with Ok a => Ok (f a) | Raise e => Raise e end.

Definition raises {A} (k : exn_kind) (r : result A) : Prop :=
  ∃ m, r = Raise (k, m).

Definition ok_or {A} (d : A) (r : result A) : A :=
  match r with Ok a => a | Raise _ => d end.

(** [for x in xs: s = body(x, s)], stopping at the first exception. *)
Fixpoint for_each {A S} (xs : list A) (body : A → S → result S) (s : S)
  : result S :=
  match xs with
  | [] => Ok s
  | x :: xs' => s' ← body x s; for_each xs' body s'
  end.

(** [range(n)] and [range(start, stop, -1)]. *)
Definition range (n : Z) : list Z := seqZ 0 n.
Definition range_down (start stop : Z) : list Z :=
  (λ i, start - i) <$> seqZ 0 (start - stop).

(** ** binary64 *)

Definition prec : Z := 53.
Definition emax : Z := 1024.

Definition fadd := SFadd prec emax.
Definition fsub := SFsub prec emax.
Definition fmul := SFmul prec emax.
Definition fdiv := SFdiv prec emax.

(** An integer as an exact (not normalised) significand with exponent 0. *)
Definition Z2SF (z : Z) : spec_float :=
  match z with
  | Z0 => S754_zero false
  | Zpos p => S754_finite false p 0
  | Zneg p => S754_finite true p 0
  end.

(** [float(z)]: round to nearest even; too large an integer raises. *)
Definition float_of_int (z : Z) : result spec_float :=
  match binary_normalize prec emax z 0 false with
  | S754_infinity _ =>
      Raise (OverflowError, "int too large to convert to float")
  | f => Ok f
  end.

Definition is_zero (f : spec_float) : bool :=
  match f with S754_zero _ => true | _ => false end.

Definition is_inf (f : spec_float) : bool :=
  match f with S754_infinity _ => true | _ => false end.

(** Decimal literals of the scripts, as the nearest binary64 value. *)
Definition f0_7 : spec_float := S754_finite false 6305039478318694 (-53).
Definition f0_70 : spec_float := f0_7.
Definition f0_80 : spec_float := S754_finite false 7205759403792794 (-53).
Definition f0_02 : spec_float := S754_finite false 5764607523034235 (-58).
Definition f0_025 : spec_float := S754_finite false 7205759403792794 (-58).
Definition f0_07 : spec_float := S754_finite false 5044031582654956 (-56).
Definition f0_15 : spec_float := S754_finite false 5404319552844595 (-55).
Definition f0_4 : spec_float := S754_finite false 7205759403792794 (-54).
Definition f1_0 : spec_float := S754_finite false 4503599627370496 (-52).

(** ** The numeric tower *)

Inductive num := Int (z : Z) | Float (f : spec_float).

Definition to_float (a : num) : result spec_float :=
  match a with Int z => float_of_int z | Float f => Ok f end.

(** [a / b] on two ints: the correctly rounded quotient. *)
Definition int_truediv (a b : Z) : result spec_float :=
  if b =? 0 then Raise (ZeroDivisionError, "division by zero")
  else
    match fdiv (Z2SF a) (Z2SF b) with
    | S754_infinity _ =>
        Raise (OverflowError, "integer division result too large for a float")
    | f => Ok f
    end.

Definition truediv (a b : num) : result num :=
  match a, b with
  | Int x, Int y => Float <$> int_truediv x y
  | _, _ =>
      x ← to_float a; y ← to_float b;
      if is_zero y then Raise (ZeroDivisionError, "float division by zero")
      else Ok (Float (fdiv x y))
  end.

Definition arith (iop : Z → Z → Z) (fop : spec_float → spec_float → spec_float)
    (a b : num) : result num :=
  match a, b with
  | Int x, Int y => Ok (Int (iop x y))
  | _, _ => x ← to_float a; y ← to_float b; Ok (Float (fop x y))
  end.

Definition add := arith Z.add fadd.
Definition sub := arith Z.sub fsub.
Definition mul := arith Z.mul fmul.

(** [a ** 2]; a float power that overflows raises. *)
Definition pow2 (a : num) : result num :=
  match a with
  | Int z => Ok (Int (z * z))
  | Float f =>
      let r := fmul f f in
      if is_inf r && negb (is_inf f)
      then Raise (OverflowError, "(34, 'Numerical result out of range')")
      else Ok (Float r)
  end.

(** [int(a)]: truncation toward zero. *)
Definition int_of (a : num) : result Z :=
  match a with
  | Int z => Ok z
  | Float S754_nan =>
      Raise (ValueError, "cannot convert float NaN to integer")
  | Float (S754_infinity _) =>
      Raise (OverflowError, "cannot convert float infinity to integer")
  | Float (S754_zero _) => Ok 0
  | Float (S754_finite s m e) => Ok (cond_Zopp s (Z.shiftl (Z.pos m) e))
  end.

(** [a <= b] and [a > b]; an int meets a float as a float. *)
Definition le (a b : num) : result bool :=
  match a, b with
  | Int x, Int y => Ok (x <=? y)
  | _, _ => x ← to_float a; y ← to_float b; Ok (SFleb x y)
  end.

Definition gt (a b : num) : result bool :=
  match a, b with
  | Int x, Int y => Ok (x >? y)
  | _, _ => x ← to_float a; y ← to_float b; Ok (SFltb y x)
  end.

(** ** Magnitudes, for the proofs that the arithmetic stays finite *)

(** [f] is a zero or a finite number of absolute value below [2^K]. *)
Definition fbound (K : Z) (f : spec_float) : Prop :=
  match f with
  | S754_zero _ => True
  | S754_finite _ m e => Z.pos m < 2 ^ (K - e)
  | _ => False
  end.

Definition nbound (K : Z) (a : num) : Prop :=
  match a with
  | Int z => Z.abs z < 2 ^ K
  | Float f => fbound K f
  end.

(** The exponent [SFdiv] gives the quotient of two significands. *)
Definition div_exp (m1 : positive) (e1 : Z) (m2 : positive) (e2 : Z) : Z :=
  Z.min (fexp prec emax
           (Z.pos (digits2_pos m1) + e1 - (Z.pos (digits2_pos m2) + e2)))
        (e1 - e2).

End Py.

(* ===================================================================== *)
(** * The imaging library                                                 *)
(* ===================================================================== *)

Module PIL.
Import Py.

Inductive mode := L | RGB | RGBA.

#[export] Instance mode_eq_dec : EqDecision mode.
Proof. solve_decision. Defined.

(** A stored pixel has four bytes; modes without alpha keep the fourth at
    255, and mode [L] repeats its value in the first three. *)
Definition pixel : Type := Z * Z * Z * Z.

(** A colour argument: a 3-tuple or a 4-tuple. *)
Inductive color := C3 (r g b : Z) | C4 (r g b a : Z).

Record Image := mkImage {
  im_mode : mode;
  im_width : Z;
  im_height : Z;
  im_data : list pixel   (* row-major, [im_width * im_height] entries *)
}.

Definition clip8 (v : Z) : Z := Z.max 0 (Z.min 255 v).

Definition ink (m : mode) (c : color) : pixel :=
  match m, c with
  | RGBA, C4 r g b a => (clip8 r, clip8 g, clip8 b, clip8 a)
  | RGBA, C3 r g b => (clip8 r, clip8 g, clip8 b, 255)
  | RGB, C4 r g b _ | RGB, C3 r g b => (clip8 r, clip8 g, clip8 b, 255)
  | L, C4 r _ _ _ | L, C3 r _ _ => (clip8 r, clip8 r, clip8 r, 255)
  end.

Definition transparent : pixel := (0, 0, 0, 0).
Definition alpha_of (p : pixel) : Z := p.2.
Definition set_alpha (p : pixel) (a : Z) : pixel := (p.1, a).

(** The buffer of a [w]x[h] raster whose pixel at [(x, y)] is [f x y]. *)
Definition raster (w h : Z) (f : Z → Z → pixel) : list pixel :=
  y ← seqZ 0 h; (λ x, f x y) <$> seqZ 0 w.

Definition inside (im : Image) (x y : Z) : bool :=
  (0 <=? x) && (x <? im_width im) && (0 <=? y) && (y <? im_height im).

Definition offset (im : Image) (x y : Z) : nat :=
  Z.to_nat (y * im_width im + x).

(** The pixel at [(x, y)], transparent black outside the raster. *)
Definition px (im : Image) (x y : Z) : pixel :=
  if inside im x y then default transparent (im_data im !! offset im x y)
  else transparent.

(** The buffer has one entry per pixel. *)
Definition wf (im : Image) : Prop :=
  0 ≤ im_width im ∧ 0 ≤ im_height im ∧
  length (im_data im) = Z.to_nat (im_width im * im_height im).

Definition same_shape (a b : Image) : Prop :=
  im_mode a = im_mode b ∧ im_width a = im_width b ∧ im_height a = im_height b.

Definition with_data (im : Image) (d : list pixel) : Image :=
  mkImage (im_mode im) (im_width im) (im_height im) d.

Definition remap (im : Image) (f : Z → Z → pixel) : Image :=
  with_data im (raster (im_width im) (im_height im) f).

(** The resampling, blur and rasterisation kernels and the per-pixel
    blending arithmetic of the library are not part of the scripts: they
    are parameters of the development. *)
Class Kernels := {
  (** [lanczos im w h x y]: pixel [(x, y)] of [im] resampled to [w]x[h] *)
  lanczos : Image → Z → Z → Z → Z → pixel;
  (** [gaussian im radius x y]: pixel [(x, y)] of [im] blurred *)
  gaussian : Image → Z → Z → Z → pixel;
  (** does the filled ellipse inscribed in the box cover [(x, y)]? *)
  ellipse_covers : Z * Z * Z * Z → Z → Z → bool;
  (** source-over compositing of one pixel: backdrop, source *)
  over : pixel → pixel → pixel;
  (** one channel of a masked paste: destination, source, mask value *)
  blend : Z → Z → Z → Z
}.

(** [Image.new(mode, (w, h), color)] *)
Definition new (m : mode) (w h : Z) (c : color) : result Image :=
  if (w <? 0) || (h <? 0)
  then Raise (ValueError, "Width and height must be >= 0")
  else Ok (mkImage m w h (replicate (Z.to_nat (w * h)) (ink m c))).

(** [im.putpixel((x, y), color)]; negative coordinates count from the end. *)
Definition putpixel (im : Image) (x y : Z) (c : color) : result Image :=
  let x := if x <? 0 then im_width im + x else x in
  let y := if y <? 0 then im_height im + y else y in
  if inside im x y
  then Ok (with_data im (<[offset im x y := ink (im_mode im) c]> (im_data im)))
  else Raise (IndexError, "image index out of range").

(** [im.convert("RGBA")] and the conversion to [RGB] a paste performs. *)
Definition convert (im : Image) (m : mode) : Image :=
  match m with
  | RGBA => mkImage RGBA (im_width im) (im_height im) (im_data im)
  | _ => mkImage m (im_width im) (im_height im)
           ((λ p, set_alpha p 255) <$> im_data im)
  end.

Definition copy (im : Image) : Image := im.

(** [im.split()[3]]: the alpha band, an [L] raster. *)
Definition alpha_band (im : Image) : result Image :=
  match im_mode im with
  | RGBA => Ok (mkImage L (im_width im) (im_height im)
                 ((λ p, let a := alpha_of p in (a, a, a, 255)) <$> im_data im))
  | _ => Raise (IndexError, "tuple index out of range")
  end.

Definition same_size (a b : Image) : bool :=
  (im_width a =? im_width b) && (im_height a =? im_height b).

(** The value a mask raster gives at a pixel: its alpha, or its level. *)
Definition mask_value (m : Image) (x y : Z) : Z :=
  match im_mode m with
  | RGBA => alpha_of (px m x y)
  | _ => (px m x y).1.1.1
  end.

(** [im.putalpha(band)]: the alpha layer is replaced by the band. *)
Definition putalpha (im band : Image) : result Image :=
  if negb (bool_decide (im_mode band = L))
  then Raise (ValueError, "illegal image mode")
  else if same_size im band
  then Ok (mkImage RGBA (im_width im) (im_height im)
             (raster (im_width im) (im_height im)
                (λ x y, set_alpha (px im x y) (mask_value band x y))))
  else Raise (ValueError, "images do not match").

(** [im.crop((left, top, right, bottom))] *)
Definition crop (im : Image) (left top right bottom : Z) : result Image :=
  if right <? left
  then Raise (ValueError, "Coordinate 'right' is less than 'left'")
  else if bottom <? top
  then Raise (ValueError, "Coordinate 'lower' is less than 'upper'")
  else Ok (mkImage (im_mode im) (right - left) (bottom - top)
             (raster (right - left) (bottom - top)
                (λ x y, px im (x + left) (y + top)))).

Section WithKernels.
Context `{Kernels}.

Definition blend_px (m : mode) (dst src : pixel) (a : Z) : pixel :=
  let '(dr, dg, db, da) := dst in
  let '(sr, sg, sb, sa) := src in
  (blend dr sr a, blend dg sg a, blend db sb a,
   match m with RGBA => blend da sa a | _ => 255 end).

(** [dst.paste(src, (ox, oy), mask)]: the source is converted to the
    mode of the destination and clipped to it. *)
Definition paste (dst src : Image) (ox oy : Z) (mask : option Image)
  : result Image :=
  let src' := convert src (im_mode dst) in
  match mask with
  | None =>
      Ok (remap dst (λ x y,
            if inside src (x - ox) (y - oy)
            then px src' (x - ox) (y - oy) else px dst x y))
  | Some m =>
      if same_size src m
      then Ok (remap dst (λ x y,
            if inside src (x - ox) (y - oy)
            then blend_px (im_mode dst) (px dst x y)
                   (px src' (x - ox) (y - oy))
                   (mask_value m (x - ox) (y - oy))
            else px dst x y))
      else Raise (ValueError, "images do not match")
  end.

(** [Image.alpha_composite(im1, im2)] *)
Definition alpha_composite (im1 im2 : Image) : result Image :=
  match im_mode im1, im_mode im2 with
  | RGBA, RGBA =>
      if same_size im1 im2
      then Ok (remap im1 (λ x y, over (px im1 x y) (px im2 x y)))
      else Raise (ValueError, "images do not match")
  | _, _ => Raise (ValueError, "image has wrong mode")
  end.

(** [im.resize((w, h), Image.Resampling.LANCZOS)] *)
Definition resize (im : Image) (w h : Z) : result Image :=
  if (w <? 1) || (h <? 1)
  then Raise (ValueError, "height and width must be > 0")
  else Ok (mkImage (im_mode im) w h (raster w h (lanczos im w h))).

(** [im.filter(ImageFilter.GaussianBlur(radius))] *)
Definition gaussian_blur (im : Image) (radius : Z) : Image :=
  remap im (gaussian im radius).

(** [ImageDraw.Draw(im).ellipse(bbox, fill=color)]: the covered pixels
    are overwritten with the ink. *)
Definition ellipse (im : Image) (bbox : Z * Z * Z * Z) (fill : color)
  : Image :=
  remap im (λ x y,
    if ellipse_covers bbox x y then ink (im_mode im) fill else px im x y).

End WithKernels.

End PIL.


(* ===================================================================== *)
(** * The operating system: files, standard output, the packer           *)
(* ===================================================================== *)

Module OS.
Import Py PIL.

(** A path is the list of its components below the root; [os.path.join]
    appends components and [os.path.dirname] drops the last one. *)
Abbreviation path := (list string).

Definition path_str (p : path) : string := "/" +:+ String.concat "/" p.
Definition dirname (p : path) : path := removelast p.

(** [s.replace(old, new)] for a non-empty [old]: leftmost matches, not
    overlapping; [skip] counts the characters of a match still to drop. *)
Fixpoint replace_from (old new : string) (skip : nat) (s : string) : string :=
  match s with
  | EmptyString => EmptyString
  | String c s' =>
      match skip with
      | S k => replace_from old new k s'
      | O =>
          if String.prefix old s
          then new +:+ replace_from old new (String.length old - 1) s'
          else String c (replace_from old new 0 s')
      end
  end.

Definition str_replace (old new s : string) : string :=
  replace_from old new 0 s.

(** Applied to a whole path, for a pattern without a separator. *)
Definition path_replace (old new : string) (p : path) : path :=
  str_replace old new <$> p.

#[local] Unset Elimination Schemes.
Inductive json :=
| JStr (s : string)
| JInt (z : Z)
| JArr (l : list json)
| JObj (l : list (string * json)).
#[local] Set Elimination Schemes.

Inductive content :=
| FImage (im : Image)       (* a PNG file, decoded *)
| FJson (j : json)          (* a JSON document *)
| FBlob (b : string).       (* anything else *)

Inductive node := File (c : content) | Dir.

Record world := mkWorld {
  fs : gmap path node;
  stdout : list string
}.

(** What the external packer does when it is spawned: it fails to start,
    or it exits with a return code and diagnostics, having possibly
    written its destination file. *)
Inductive spawned :=
| SpawnError (e : exn)
| Exited (returncode : Z) (stderr : string) (written : option content).

Class Platform := {
  (** [iconutil -c icns src -o dst] on a file tree *)
  iconutil : gmap path node → path → path → spawned
}.

(** ** The monad of the scripts: a world threaded through, exceptions *)

Definition io (A : Type) : Type := world → result A * world.

#[export] Instance io_ret : MRet io := λ A a w, (Ok a, w).
#[export] Instance io_bind : MBind io := λ A B f m w,
  match m w with
  | (Ok a, w') => f a w'
  | (Raise e, w') => (Raise e, w')
  end.

#[export] Instance io_fmap : FMap io := λ A B f m w,
  match m w with
  | (Ok a, w') => (Ok (f a), w')
  | (Raise e, w') => (Raise e, w')
  end.

Definition lift {A} (r : result A) : io A := λ w, (r, w).

(** [try: body / except Exception as e: handler(e)] *)
Definition try_except {A} (body : io A) (handler : exn → io A) : io A :=
  λ w, match body w with
       | (Ok a, w') => (Ok a, w')
       | (Raise e, w') => handler e w'
       end.

Fixpoint for_each_io {A} (xs : list A) (body : A → io ()) : io () :=
  match xs with
  | [] => mret ()
  | x :: xs' => body x ;; for_each_io xs' body
  end.

Definition print (s : string) : io () :=
  λ w, (Ok (), mkWorld (fs w) (stdout w ++ [s])).

Definition node_at (t : gmap path node) (p : path) : option node :=
  match p with [] => Some Dir | _ => t !! p end.

(** [os.path.exists(p)] *)
Definition path_exists (p : path) : io bool :=
  λ w, (Ok (bool_decide (is_Some (node_at (fs w) p))), w).

Definition on_fs {A} (f : gmap path node → result (A * gmap path node)) : io A :=
  λ w, match f (fs w) with
       | Ok (a, t) => (Ok a, mkWorld t (stdout w))
       | Raise e => (Raise e, w)
       end.

(** [os.makedirs(p, exist_ok=True)], from the directory [pre] downwards. *)
Fixpoint makedirs_from (pre : path) (rest : list string) (t : gmap path node)
  : result (gmap path node) :=
  match rest with
  | [] => Ok t
  | c :: rest' =>
      let p := pre ++ [c] in
      match t !! p with
      | Some Dir => makedirs_from p rest' t
      | Some (File _) =>
          Raise (match rest' with
                 | [] => FileExistsError
                 | _ => NotADirectoryError
                 end, path_str p)
      | None => makedirs_from p rest' (<[p := Dir]> t)
      end
  end.

Definition makedirs (p : path) : io () :=
  on_fs (λ t, t' ← makedirs_from [] p t; Ok ((), t')).

(** Creating or overwriting the file [p]. *)
Definition write_at (p : path) (c : content) (t : gmap path node)
  : result (gmap path node) :=
  match p with
  | [] => Raise (IsADirectoryError, path_str p)
  | _ =>
      match node_at t (dirname p) with
      | None => Raise (FileNotFoundError, path_str p)
      | Some (File _) => Raise (NotADirectoryError, path_str p)
      | Some Dir =>
          match t !! p with
          | Some Dir => Raise (IsADirectoryError, path_str p)
          | _ => Ok (<[p := File c]> t)
          end
      end
  end.

Definition write_file (p : path) (c : content) : io () :=
  on_fs (λ t, t' ← write_at p c t; Ok ((), t')).

Definition read_at (p : path) (t : gmap path node) : result content :=
  match node_at t p with
  | None => Raise (FileNotFoundError, path_str p)
  | Some Dir => Raise (IsADirectoryError, path_str p)
  | Some (File c) => Ok c
  end.

(** [Image.open(p)] *)
Definition image_open (p : path) : io Image :=
  on_fs (λ t, c ← read_at p t;
              match c with
              | FImage im => Ok (im, t)
              | _ => Raise (UnidentifiedImageError, path_str p)
              end).

(** [im.save(p, "PNG")] *)
Definition image_save (im : Image) (p : path) : io () :=
  write_file p (FImage im).

(** [shutil.copy2(src, dst)] *)
Definition copy2 (src dst : path) : io () :=
  on_fs (λ t, c ← read_at src t;
              let dst' := match node_at t dst with
                          | Some Dir => dst ++ option_list (last src)
                          | _ => dst
                          end in
              t' ← write_at dst' c t; Ok ((), t')).

(** [shutil.rmtree(p)] *)
Definition rmtree (p : path) : io () :=
  on_fs (λ t, match node_at t p with
              | None => Raise (FileNotFoundError, path_str p)
              | Some (File _) => Raise (NotADirectoryError, path_str p)
              | Some Dir => Ok ((), filter (λ kv, ¬ (p `prefix_of` kv.1)) t)
              end).

(** The outcome of [subprocess.run(..., capture_output=True, text=True)]. *)
Record completed := mkCompleted { returncode : Z; stderr : string }.

Definition run_iconutil `{Platform} (src dst : path) : io completed :=
  λ w, match iconutil (fs w) src dst with
       | SpawnError e => (Raise e, w)
       | Exited rc err None => (Ok (mkCompleted rc err), w)
       | Exited rc err (Some c) =>
           (Ok (mkCompleted rc err), mkWorld (<[dst := File c]> (fs w)) (stdout w))
       end.

(** ** Properties of actions, for the statements *)

(** [m] changes no file outside [Q]. *)
Definition frames {A} (Q : path → Prop) (m : io A) : Prop :=
  ∀ w p, ¬ Q p → fs (m w).2 !! p = fs w !! p.

(** [m] prints nothing. *)
Definition quiet {A} (m : io A) : Prop :=
  ∀ w, stdout (m w).2 = stdout w.

(** The outcome is the status 0, or an exception. *)
Definition zero_or_raise (r : result Z) : Prop :=
  r = Ok 0 ∨ ∃ e, r = Raise e.

(** [m] returns 0 whenever it returns. *)
Definition returns_zero (m : io Z) : Prop :=
  ∀ w, zero_or_raise (m w).1.

End OS.


(* ===================================================================== *)
(** * Expressions the two scripts repeat                                  *)
(* ===================================================================== *)

Module Expr.
Import Py.

(** [i / (size - 1) if size > 1 else 0] *)
Definition fraction (i size : Z) : result num :=
  if size >? 1 then truediv (Int i) (Int (size - 1)) else Ok (Int 0).

(** [int(c0 + (c1 - c0) * t)] *)
Definition interpolate (c0 c1 : Z) (t : num) : result Z :=
  d ← mul (Int (c1 - c0)) t;
  s ← add (Int c0) d;
  int_of s.

(** [int(n * f)] for an int [n] and a float literal [f]. *)
Definition scaled (n : Z) (f : spec_float) : result Z :=
  mul (Int n) (Float f) ≫= int_of.

(** [s * n] on a string. *)
Fixpoint str_repeat (s : string) (n : nat) : string :=
  match n with
  | O => EmptyString
  | S n' => s +:+ str_repeat s n'
  end.

End Expr.

(* ===================================================================== *)
(** * generate-icons.py, the full generator                              *)
(* ===================================================================== *)

Module Full.
Import Py PIL OS Expr.

(** Icon sizes for macOS (size, scale, filename) *)
Definition ICON_SIZES : list (Z * Z * string) :=
  [ (16, 1, "icon_16x16.png");
    (16, 2, "icon_16x16@2x.png");
    (32, 1, "icon_32x32.png");
    (32, 2, "icon_32x32@2x.png");
    (128, 1, "icon_128x128.png");
    (128, 2, "icon_128x128@2x.png");
    (256, 1, "icon_256x256.png");
    (256, 2, "icon_256x256@2x.png");
    (512, 1, "icon_512x512.png");
    (512, 2, "icon_512x512@2x.png") ].

Definition color_tl : Z * Z * Z := (20, 45, 55).  (* Dark teal (top-left) *)
Definition color_tr : Z * Z * Z := (35, 40, 70).  (* Blue-purple (top-right) *)
Definition color_bl : Z * Z * Z := (25, 50, 65).  (* Teal (bottom-left) *)
Definition color_br : Z * Z * Z := (55, 30, 75).  (* Purple (bottom-right) *)

(** The body of the two loops: the colour written at [(x, y)]. *)
Definition gradient_color (size x y : Z) : result color :=
  tx ← fraction x size;
  ty ← fraction y size;
  top_r ← interpolate color_tl.1.1 color_tr.1.1 tx;
  top_g ← interpolate color_tl.1.2 color_tr.1.2 tx;
  top_b ← interpolate color_tl.2 color_tr.2 tx;
  bot_r ← interpolate color_bl.1.1 color_br.1.1 tx;
  bot_g ← interpolate color_bl.1.2 color_br.1.2 tx;
  bot_b ← interpolate color_bl.2 color_br.2 tx;
  r ← interpolate top_r bot_r ty;
  g ← interpolate top_g bot_g ty;
  b ← interpolate top_b bot_b ty;
  Ok (C4 r g b 255).

Definition create_gradient_background (size : Z) : result Image :=
  img ← new RGBA size size (C4 0 0 0 255);
  for_each (range size) (λ y img,
    for_each (range size) (λ x img,
      c ← gradient_color size x y;
      putpixel img x y c) img) img.

Section WithKernels.
Context `{Kernels}.

(** [int(255 * intensity * (1 - radius / max_radius) ** 2)] *)
Definition glow_alpha (intensity : num) (radius max_radius : Z) : result Z :=
  k ← mul (Int 255) intensity;
  q ← truediv (Int radius) (Int max_radius);
  d ← sub (Int 1) q;
  sq ← pow2 d;
  v ← mul k sq;
  int_of v.

(** One turn of the radius loop. *)
Definition glow_step (center max_radius : Z) (color : Z * Z * Z)
    (intensity : num) (radius : Z) (glow : Image) : result Image :=
  alpha ← glow_alpha intensity radius max_radius;
  if alpha >? 0
  then
    let bbox := (center - radius, center - radius,
                 center + radius, center + radius) in
    let '(r, g, b) := color in
    Ok (ellipse glow bbox (C4 r g b alpha))
  else Ok glow.

Definition create_inner_glow (size : Z) (color : Z * Z * Z) (intensity : num)
  : result Image :=
  glow ← new RGBA size size (C4 0 0 0 0);
  let center := size `div` 2 in
  let max_radius := size `div` 2 in
  for_each (range_down max_radius 0)
    (glow_step center max_radius color intensity) glow.

(** The circles the radius loop draws, in the order it draws them: the
    radii whose alpha is positive, each with its alpha. *)
Definition glow_bbox (center radius : Z) : Z * Z * Z * Z :=
  (center - radius, center - radius, center + radius, center + radius).

Definition glow_draw (intensity : num) (max_radius radius : Z)
  : option (Z * Z) :=
  match glow_alpha intensity radius max_radius with
  | Ok alpha => if alpha >? 0 then Some (radius, alpha) else None
  | Raise _ => None
  end.

Definition glow_draws (intensity : num) (max_radius : Z) (radii : list Z)
  : list (Z * Z) :=
  omap (glow_draw intensity max_radius) radii.

(** The last circle drawn over the pixel [(x, y)], if any. *)
Definition last_cover (center : Z) (draws : list (Z * Z)) (x y : Z)
  : option (Z * Z) :=
  last (filter (λ d, ellipse_covers (glow_bbox center d.1) x y = true) draws).

Definition add_drop_shadow (icon : Image) (size : Z) (offset : Z * Z)
    (blur_radius : Z) (shadow_opacity : num) : result Image :=
  let shadow_expansion := blur_radius * 2 in
  let canvas_size := size + shadow_expansion * 2 in
  shadow ← new RGBA canvas_size canvas_size (C4 0 0 0 0);
  icon_alpha ← alpha_band icon;
  opacity ← mul (Int 255) shadow_opacity ≫= int_of;
  shadow_layer ← new RGBA size size (C4 0 0 0 opacity);
  shadow_layer ← putalpha shadow_layer icon_alpha;
  let shadow_pos := (shadow_expansion + offset.1, shadow_expansion + offset.2) in
  shadow ← paste shadow shadow_layer shadow_pos.1 shadow_pos.2 (Some shadow_layer);
  let shadow := gaussian_blur shadow blur_radius in
  let icon_pos := (shadow_expansion, shadow_expansion) in
  shadow ← paste shadow icon icon_pos.1 icon_pos.2 (Some icon);
  let left := shadow_expansion in
  let top := shadow_expansion in
  let right := left + size in
  let bottom := top + size in
  crop shadow left top right bottom.

Definition create_icon (shadow_path logo_path output_path : path)
    (size scale : Z) : io () :=
  let actual_size := size * scale in
  background ← lift (create_gradient_background actual_size);
  glow ← lift (create_inner_glow actual_size (100, 180, 180) (Float f0_15));
  background ← lift (alpha_composite background glow);
  logo ← (λ im, convert im RGBA) <$> image_open logo_path;
  logo_size ← lift (scaled actual_size f0_80);
  logo_resized ← lift (resize logo logo_size logo_size);
  let logo_offset := (actual_size - logo_size) `div` 2 in
  offset_x ← lift (scaled actual_size f0_02);
  offset_y ← lift (scaled actual_size f0_02);
  blur_radius ← lift (scaled actual_size f0_025);
  logo_with_shadow ← lift (add_drop_shadow logo_resized logo_size
                             (offset_x, offset_y) blur_radius (Float f0_07));
  let final := copy background in
  final ← lift (paste final logo_with_shadow logo_offset logo_offset
                  (Some logo_with_shadow));
  final_rgb ← lift (new RGB actual_size actual_size (C3 0 0 0));
  final_rgb ← lift (paste final_rgb final 0 0
                      (if bool_decide (im_mode final = RGBA)
                       then Some final else None));
  image_save final_rgb output_path;;
  print ("Created: " +:+ path_str output_path +:+ " (" +:+ pretty actual_size
         +:+ "x" +:+ pretty actual_size +:+ ")").

(** The raster [create_icon] saves, as a function of what opening the logo
    gave: the steps of [create_icon] between its file operations, in the
    order it performs them. *)
Definition icon_raster (opened : result Image) (size scale : Z)
  : result Image :=
  let actual_size := size * scale in
  background ← create_gradient_background actual_size;
  glow ← create_inner_glow actual_size (100, 180, 180) (Float f0_15);
  background ← alpha_composite background glow;
  logo ← (λ im, convert im RGBA) <$> opened;
  logo_size ← scaled actual_size f0_80;
  logo_resized ← resize logo logo_size logo_size;
  let logo_offset := (actual_size - logo_size) `div` 2 in
  offset_x ← scaled actual_size f0_02;
  offset_y ← scaled actual_size f0_02;
  blur_radius ← scaled actual_size f0_025;
  logo_with_shadow ← add_drop_shadow logo_resized logo_size
                       (offset_x, offset_y) blur_radius (Float f0_07);
  let final := copy background in
  final ← paste final logo_with_shadow logo_offset logo_offset
            (Some logo_with_shadow);
  final_rgb ← new RGB actual_size actual_size (C3 0 0 0);
  paste final_rgb final 0 0
    (if bool_decide (im_mode final = RGBA) then Some final else None).

(** The line [create_icon] prints. *)
Definition created_message (output_path : path) (actual_size : Z) : string :=
  "Created: " +:+ path_str output_path +:+ " (" +:+ pretty actual_size
  +:+ "x" +:+ pretty actual_size +:+ ")".

End WithKernels.

(** Create the master 1024x1024 icon for .icns generation. *)
Definition create_master_icon `{Kernels} (shadow_path logo_path output_path : path)
    (size : Z) : io () :=
  create_icon shadow_path logo_path output_path size 1.

Definition icon_mapping : list (string * string) :=
  [ ("icon_16x16.png", "icon_16x16.png");
    ("icon_16x16@2x.png", "icon_16x16@2x.png");
    ("icon_32x32.png", "icon_32x32.png");
    ("icon_32x32@2x.png", "icon_32x32@2x.png");
    ("icon_128x128.png", "icon_128x128.png");
    ("icon_128x128@2x.png", "icon_128x128@2x.png");
    ("icon_256x256.png", "icon_256x256.png");
    ("icon_256x256@2x.png", "icon_256x256@2x.png");
    ("icon_512x512.png", "icon_512x512.png");
    ("icon_512x512@2x.png", "icon_512x512@2x.png") ].

(** The body of the [try] block of [generate_icns]. *)
Definition generate_icns_body `{Platform} (input_dir output_path : path)
  : io bool :=
  let iconset_path := path_replace ".icns" ".iconset" output_path in
  makedirs iconset_path;;
  for_each_io icon_mapping (λ '(src_name, dst_name),
    let src := input_dir ++ [src_name] in
    let dst := iconset_path ++ [dst_name] in
    present ← path_exists src;
    if present : bool then copy2 src dst else mret ());;
  result ← run_iconutil iconset_path output_path;
  if returncode result =? 0
  then
    print ("Created: " +:+ path_str output_path);;
    rmtree iconset_path;;
    mret true
  else
    print ("Error creating .icns: " +:+ stderr result);;
    mret false.

(** Generate .icns file from iconset directory using iconutil. *)
Definition generate_icns `{Platform} (input_dir output_path : path) : io bool :=
  try_except (generate_icns_body input_dir output_path)
    (λ e, print ("Error generating .icns: " +:+ e.2);; mret false).


Definition image_entry (filename scale size : string) : json :=
  JObj [ ("filename", JStr filename); ("idiom", JStr "mac");
         ("scale", JStr scale); ("size", JStr size) ].

Definition contents : json :=
  JObj [ ("images", JArr
           [ image_entry "icon_16x16.png" "1x" "16x16";
             image_entry "icon_16x16@2x.png" "2x" "16x16";
             image_entry "icon_32x32.png" "1x" "32x32";
             image_entry "icon_32x32@2x.png" "2x" "32x32";
             image_entry "icon_128x128.png" "1x" "128x128";
             image_entry "icon_128x128@2x.png" "2x" "128x128";
             image_entry "icon_256x256.png" "1x" "256x256";
             image_entry "icon_256x256@2x.png" "2x" "256x256";
             image_entry "icon_512x512.png" "1x" "512x512";
             image_entry "icon_512x512@2x.png" "2x" "512x512" ]);
         ("info", JObj [ ("author", JStr "xcode"); ("version", JInt 1) ]) ].

(** Update the Contents.json file with the generated icon filenames. *)
Definition update_contents_json (output_dir : path) : io () :=
  let contents_path := output_dir ++ ["Contents.json"] in
  write_file contents_path (FJson contents);;
  print ("Updated: " +:+ path_str contents_path).

Definition shadow_path_of (script_dir : path) : path :=
  script_dir ++ ["shadow_layer_converted.png"].
Definition logo_path_of (script_dir : path) : path :=
  script_dir ++ ["logo_layer_converted.png"].
Definition output_dir_of (script_dir : path) : path :=
  script_dir ++ ["Convertify"; "Assets.xcassets"; "AppIcon.appiconset"].
Definition icns_path_of (script_dir : path) : path :=
  script_dir ++ ["Convertify.app"; "Contents"; "Resources"; "AppIcon.icns"].

(** The end of [main], after the packer was run. *)
Definition epilogue : io Z :=
  print "";;
  print (str_repeat "=" 60);;
  print "✅ App icons generated successfully!";;
  print (str_repeat "=" 60);;
  print "";;
  print "Next steps:";;
  print "1. Open Xcode and verify the icons in Assets.xcassets";;
  print "2. Rebuild the app to apply the new icons";;
  print "";;
  mret 0.

(** The part of [main] after the logo was found. *)
Definition generate_all `{Kernels} `{Platform}
    (shadow_path logo_path output_dir icns_path : path) : io Z :=
  makedirs output_dir;;
  print (str_repeat "=" 60);;
  print "Generating macOS Big Sur+ style app icons";;
  print (str_repeat "=" 60);;
  print ("Logo layer: " +:+ path_str logo_path);;
  print ("Output: " +:+ path_str output_dir);;
  print "";;
  for_each_io ICON_SIZES (λ '(size, scale, filename),
    let output_path := output_dir ++ [filename] in
    create_icon shadow_path logo_path output_path size scale);;
  update_contents_json output_dir;;
  print "";;
  print "Generating .icns file...";;
  makedirs (dirname icns_path);;
  generate_icns output_dir icns_path;;
  epilogue.

(** [main()]; [script_dir] is the directory of the script file. The value
    returned is the exit status of the process ([exit(main())]). *)
Definition main `{Kernels} `{Platform} (script_dir : path) : io Z :=
  let shadow_path := shadow_path_of script_dir in
  let logo_path := logo_path_of script_dir in
  let output_dir := output_dir_of script_dir in
  let icns_path := icns_path_of script_dir in
  has_shadow ← path_exists shadow_path;
  (if negb has_shadow
   then print ("Warning: Shadow layer not found at " +:+ path_str shadow_path);;
        print "Proceeding without shadow layer..."
   else mret ());;
  has_logo ← path_exists logo_path;
  if negb has_logo
  then print ("Error: Logo layer not found at " +:+ path_str logo_path);;
       mret 1
  else generate_all shadow_path logo_path output_dir icns_path.

End Full.

(* ===================================================================== *)
(** * Scripts/generate-fallback-icons.py, the fallback generator         *)
(* ===================================================================== *)

Module Fallback.
Import Py PIL OS Expr.

(** Icon sizes for macOS (size, scale, filename) *)
Definition ICON_SIZES : list (Z * Z * string) :=
  [ (16, 1, "icon_16x16.png");
    (16, 2, "icon_16x16@2x.png");
    (32, 1, "icon_32x32.png");
    (32, 2, "icon_32x32@2x.png");
    (128, 1, "icon_128x128.png");
    (128, 2, "icon_128x128@2x.png");
    (256, 1, "icon_256x256.png");
    (256, 2, "icon_256x256@2x.png");
    (512, 1, "icon_512x512.png");
    (512, 2, "icon_512x512@2x.png") ].

Definition color_top : Z * Z * Z := (57, 62, 62).
Definition color_bottom : Z * Z * Z := (34, 36, 43).

(** Gradient stops at y=0.7 per icon.json *)
Definition gradient_end : spec_float := f0_7.

(** The colour of row [y]: the part of the outer loop before the inner one. *)
Definition row_color (size y : Z) : result color :=
  ty ← fraction y size;
  above ← le ty (Float gradient_end);
  if above : bool
  then
    t ← truediv ty (Float gradient_end);
    r ← interpolate color_top.1.1 color_bottom.1.1 t;
    g ← interpolate color_top.1.2 color_bottom.1.2 t;
    b ← interpolate color_top.2 color_bottom.2 t;
    Ok (C3 r g b)
  else
    let '(r, g, b) := color_bottom in
    Ok (C3 r g b).

Definition create_gradient_background (size : Z) : result Image :=
  img ← new RGB size size (C3 0 0 0);
  for_each (range size) (λ y img,
    c ← row_color size y;
    for_each (range size) (λ x img, putpixel img x y c) img) img.

Section WithKernels.
Context `{Kernels}.

(** Create app icon at specified size with logo composited on gradient
    background. *)
Definition create_icon (logo_path output_path : path) (size scale : Z)
  : io () :=
  let actual_size := size * scale in
  background ← lift (create_gradient_background actual_size);
  logo ← (λ im, convert im RGBA) <$> image_open logo_path;
  logo_size ← lift (scaled actual_size f0_70);
  logo_aspect ← lift (truediv (Int (im_width logo)) (Int (im_height logo)));
  wide ← lift (gt logo_aspect (Int 1));
  '(new_width, new_height) ← lift (
    if wide : bool
    then h ← truediv (Int logo_size) logo_aspect ≫= int_of; Ok (logo_size, h)
    else w ← mul (Int logo_size) logo_aspect ≫= int_of; Ok (w, logo_size));
  logo_resized ← lift (resize logo new_width new_height);
  let x_offset := (actual_size - new_width) `div` 2 in
  let y_offset := (actual_size - new_height) `div` 2 in
  let background_rgba := convert background RGBA in
  background_rgba ← lift (paste background_rgba logo_resized x_offset y_offset
                            (Some logo_resized));
  final ← lift (new RGB actual_size actual_size (C3 0 0 0));
  final ← lift (paste final background_rgba 0 0 None);
  image_save final output_path;;
  print ("Created: " +:+ path_str output_path +:+ " (" +:+ pretty actual_size
         +:+ "x" +:+ pretty actual_size +:+ ")").

(** The raster [create_icon] saves, as a function of what opening the logo
    gave: the steps of [create_icon] between its file operations, in the
    order it performs them. *)
Definition icon_raster (opened : result Image) (size scale : Z)
  : result Image :=
  let actual_size := size * scale in
  background ← create_gradient_background actual_size;
  logo ← (λ im, convert im RGBA) <$> opened;
  logo_size ← scaled actual_size f0_70;
  logo_aspect ← truediv (Int (im_width logo)) (Int (im_height logo));
  wide ← gt logo_aspect (Int 1);
  '(new_width, new_height) ← (
    if wide : bool
    then h ← truediv (Int logo_size) logo_aspect ≫= int_of; Ok (logo_size, h)
    else w ← mul (Int logo_size) logo_aspect ≫= int_of; Ok (w, logo_size));
  logo_resized ← resize logo new_width new_height;
  let x_offset := (actual_size - new_width) `div` 2 in
  let y_offset := (actual_size - new_height) `div` 2 in
  let background_rgba := convert background RGBA in
  background_rgba ← paste background_rgba logo_resized x_offset y_offset
                      (Some logo_resized);
  final ← new RGB actual_size actual_size (C3 0 0 0);
  paste final background_rgba 0 0 None.

(** The line [create_icon] prints. *)
Definition created_message (output_path : path) (actual_size : Z) : string :=
  "Created: " +:+ path_str output_path +:+ " (" +:+ pretty actual_size
  +:+ "x" +:+ pretty actual_size +:+ ")".

End WithKernels.

Definition image_entry (filename scale size : string) : json :=
  JObj [ ("filename", JStr filename); ("idiom", JStr "mac");
         ("scale", JStr scale); ("size", JStr size) ].

Definition contents : json :=
  JObj [ ("images", JArr
           [ image_entry "icon_16x16.png" "1x" "16x16";
             image_entry "icon_16x16@2x.png" "2x" "16x16";
             image_entry "icon_32x32.png" "1x" "32x32";
             image_entry "icon_32x32@2x.png" "2x" "32x32";
             image_entry "icon_128x128.png" "1x" "128x128";
             image_entry "icon_128x128@2x.png" "2x" "128x128";
             image_entry "icon_256x256.png" "1x" "256x256";
             image_entry "icon_256x256@2x.png" "2x" "256x256";
             image_entry "icon_512x512.png" "1x" "512x512";
             image_entry "icon_512x512@2x.png" "2x" "512x512" ]);
         ("info", JObj [ ("author", JStr "xcode"); ("version", JInt 1) ]) ].

(** Create Contents.json for the appiconset. *)
Definition create_contents_json (output_dir : path) : io () :=
  write_file (output_dir ++ ["Contents.json"]) (FJson contents);;
  print "Created: Contents.json".

Definition logo_path_of (script_dir : path) : path :=
  dirname script_dir
    ++ ["Convertify"; "AppIcon.icon"; "Assets"; "clean_convertify.png"].
Definition output_dir_of (script_dir : path) : path :=
  dirname script_dir
    ++ ["Convertify"; "Assets.xcassets"; "AppIcon.appiconset"].

(** The part of [main] after the logo was found. *)
Definition generate_all `{Kernels} (logo_path output_dir : path) : io Z :=
  makedirs output_dir;;
  print (str_repeat "=" 60);;
  print "Generating fallback AppIcon.appiconset";;
  print (str_repeat "=" 60);;
  print ("Logo: " +:+ path_str logo_path);;
  print ("Output: " +:+ path_str output_dir);;
  print "";;
  for_each_io ICON_SIZES (λ '(size, scale, filename),
    let output_path := output_dir ++ [filename] in
    create_icon logo_path output_path size scale);;
  create_contents_json output_dir;;
  print "";;
  print (str_repeat "=" 60);;
  print "Fallback icons generated successfully!";;
  print (str_repeat "=" 60);;
  mret 0.

(** [main()]; [script_dir] is the directory of the script file, and the
    project root is its parent. *)
Definition main `{Kernels} (script_dir : path) : io Z :=
  let logo_path := logo_path_of script_dir in
  let output_dir := output_dir_of script_dir in
  has_logo ← path_exists logo_path;
  if negb has_logo
  then print ("Error: Logo not found at " +:+ path_str logo_path);;
       mret 1
  else generate_all logo_path output_dir.

End Fallback.

(* ===================================================================== *)
(** * Sample kernels, packers and file trees                              *)
(* ===================================================================== *)

Module Samples.
Import Py PIL OS.

(** Kernels simple enough to run: the nearest sample for the resampling,
    no blur, an integer test for the ellipse and integer blending. *)
Definition sample_kernels : Kernels := {|
  lanczos im w h x y := px im (x * im_width im `div` w) (y * im_height im `div` h);
  gaussian im radius x y := px im x y;
  ellipse_covers bbox x y :=
    let '(x0, y0, x1, y1) := bbox in
    (x0 <=? x) && (x <=? x1) && (y0 <=? y) && (y <=? y1) &&
    ((2 * x - x0 - x1) ^ 2 * (y1 - y0) ^ 2
       + (2 * y - y0 - y1) ^ 2 * (x1 - x0) ^ 2
     <=? (x1 - x0) ^ 2 * (y1 - y0) ^ 2);
  over b s :=
    let '(br, bg, bb, ba) := b in
    let '(sr, sg, sb, sa) := s in
    let mix c d := (d * sa + c * (255 - sa)) `div` 255 in
    (mix br sr, mix bg sg, mix bb sb, sa + ba * (255 - sa) `div` 255);
  blend d s a := (d * (255 - a) + s * a) `div` 255
|}.

(** A machine without the packer, and packers that fail or succeed. *)
Definition no_packer : Platform := {|
  iconutil _ _ _ := SpawnError (FileNotFoundError, "iconutil")
|}.

Definition failing_packer : Platform := {|
  iconutil _ _ _ := Exited 1 "Invalid Iconset." None
|}.

Definition working_packer : Platform := {|
  iconutil _ _ _ := Exited 0 "" (Some (FBlob "icns"))
|}.

(** A two by two logo, opaque on its diagonal. *)
Definition sample_logo : Image :=
  mkImage RGBA 2 2 [(255, 255, 255, 255); (0, 0, 0, 0);
                    (0, 0, 0, 0); (200, 100, 50, 255)].

(** A one pixel icon, opaque. *)
Definition sample_dot : Image := mkImage RGBA 1 1 [(10, 20, 30, 255)].

Definition empty_world : world := mkWorld ∅ [].

(** A checkout of the repository at [/repo]. *)
Definition checkout : world :=
  mkWorld
    (<[ ["repo"; "logo_layer_converted.png"] := File (FImage sample_logo) ]>
     (<[ ["repo"; "Convertify"; "AppIcon.icon"; "Assets"; "clean_convertify.png"]
           := File (FImage sample_logo) ]>
     (<[ ["repo"; "Convertify"; "AppIcon.icon"; "Assets"] := Dir ]>
     (<[ ["repo"; "Convertify"; "AppIcon.icon"] := Dir ]>
     (<[ ["repo"; "Convertify"] := Dir ]>
     (<[ ["repo"; "Scripts"] := Dir ]>
     (<[ ["repo"] := Dir ]> ∅)))))))
    [].

(** The same checkout with a shadow layer beside the logo. *)
Definition checkout_with_shadow : world :=
  mkWorld
    (<[ ["repo"; "shadow_layer_converted.png"] := File (FImage sample_dot) ]>
       (fs checkout))
    [].

End Samples.

(* ===================================================================== *)
(** * Facts about the arithmetic                                          *)
(* ===================================================================== *)

Module PyFacts.
Import Py Expr.

Lemma digits2_size p : digits2_pos p = Pos.size p.
Proof. induction p; simpl; congruence. Qed.

Lemma digits_gt p : Z.pos p < 2 ^ Z.pos (digits2_pos p).
Proof.
  rewrite digits2_size. pose proof (Pos.size_gt p) as Hp.
  apply Pos2Z.pos_lt_pos in Hp. by rewrite Pos2Z.inj_pow in Hp.
Qed.

Lemma digits_le p k : Z.pos p < 2 ^ k → Z.pos (digits2_pos p) ≤ k.
Proof.
  intros Hk. rewrite digits2_size.
  pose proof (Pos.size_le p) as Hp.
  apply Pos2Z.pos_le_pos in Hp. rewrite Pos2Z.inj_pow in Hp.
  rewrite (Pos2Z.inj_xO p) in Hp.
  destruct (Z_lt_le_dec k (Z.pos (Pos.size p))) as [Hlt|]; [|done].
  assert (0 ≤ k). { destruct (Z_lt_le_dec k 0); [|done]. rewrite Z.pow_neg_r in Hk; lia. }
  assert (Hs : 2 ^ (Z.succ k) ≤ 2 ^ Z.pos (Pos.size p)) by (apply Z.pow_le_mono_r; lia).
  rewrite Z.pow_succ_r in Hs by lia. lia.
Qed.

Lemma Zdigits2_le m k : 0 ≤ m < 2 ^ k → Zdigits2 m ≤ k.
Proof.
  intros [H0 Hk]. destruct m as [|p|p]; simpl; [|by apply digits_le|lia].
  destruct (Z_lt_le_dec k 0); [|done]. rewrite Z.pow_neg_r in Hk; lia.
Qed.

Lemma fexp_eq D : fexp prec emax D = Z.max (D - 53) (-1074).
Proof. reflexivity. Qed.

Lemma shr_m_shr_1 r : 0 ≤ shr_m r → shr_m (shr_1 r) = shr_m r `div` 2.
Proof.
  destruct r as [m rb sb]. simpl. intros Hm. rewrite <- Z.div2_div.
  destruct m as [|[p|p|]|p]; simpl; done || lia.
Qed.

Lemma pow2_xI p : 2 ^ Z.pos p~1 = 2 * (2 ^ Z.pos p * 2 ^ Z.pos p).
Proof.
  rewrite (Pos2Z.inj_xI p). replace (2 * Z.pos p + 1) with (Z.succ (Z.pos p + Z.pos p)) by lia.
  rewrite Z.pow_succ_r, Z.pow_add_r by lia. done.
Qed.

Lemma pow2_xO p : 2 ^ Z.pos p~0 = 2 ^ Z.pos p * 2 ^ Z.pos p.
Proof.
  rewrite (Pos2Z.inj_xO p). replace (2 * Z.pos p) with (Z.pos p + Z.pos p) by lia.
  rewrite Z.pow_add_r by lia. done.
Qed.

Lemma shr_m_iter p : ∀ r, 0 ≤ shr_m r →
  shr_m (iter_pos shr_1 p r) = shr_m r `div` 2 ^ Z.pos p.
Proof.
  induction p as [p IH|p IH|]; intros r Hr; simpl.
  - assert (0 ≤ shr_m (shr_1 r)) by (rewrite shr_m_shr_1 by done; apply Z.div_pos; lia).
    assert (0 ≤ shr_m (iter_pos shr_1 p (shr_1 r))) by (rewrite IH by done; apply Z.div_pos; lia).
    rewrite IH, IH, shr_m_shr_1 by done.
    rewrite !Z.div_div by lia. by rewrite pow2_xI.
  - assert (0 ≤ shr_m (iter_pos shr_1 p r)) by (rewrite IH by done; apply Z.div_pos; lia).
    rewrite IH, IH by done.
    rewrite !Z.div_div by lia. by rewrite pow2_xO.
  - rewrite shr_m_shr_1 by done. done.
Qed.

Lemma shr_m_of_loc m l : shr_m (shr_record_of_loc m l) = m.
Proof. by destruct l as [|[]]. Qed.

Lemma pow2_pos_inv k m : m < 2 ^ k → 0 ≤ m → 0 ≤ k.
Proof.
  intros Hm H0. destruct (Z_lt_le_dec k 0); [|done].
  rewrite Z.pow_neg_r in Hm; lia.
Qed.

Lemma shr_fexp_bound m e l K :
  0 ≤ m < 2 ^ (K - e) → -1074 ≤ K →
  0 ≤ shr_m (shr_fexp prec emax m e l).1
    < 2 ^ (K - (shr_fexp prec emax m e l).2) ∧
  (shr_fexp prec emax m e l).2 ≤ Z.max e (Z.max (K - 53) (-1074)).
Proof.
  intros Hm HK. unfold shr_fexp, shr.
  assert (Hd : Zdigits2 m ≤ K - e) by by apply Zdigits2_le.
  pose proof (fexp_eq (Zdigits2 m + e)) as Hf.
  destruct (fexp prec emax (Zdigits2 m + e) - e) as [|p|p] eqn:Hn; simpl;
    rewrite ?shr_m_of_loc; try (split; [done|lia]).
  rewrite shr_m_iter by (rewrite shr_m_of_loc; lia).
  rewrite shr_m_of_loc. split; [split|lia].
  - apply Z.div_pos; lia.
  - apply Z.div_lt_upper_bound; [lia|].
    rewrite <- Z.pow_add_r by lia.
    replace (Z.pos p + (K - (e + Z.pos p))) with (K - e) by lia. lia.
Qed.

Lemma round_nearest_even_bound m l :
  m ≤ round_nearest_even m l ≤ m + 1.
Proof. destruct l as [|[]]; simpl; try destruct (Z.even m); lia. Qed.

Lemma binary_round_aux_bound s mx ex lx K :
  0 ≤ mx < 2 ^ (K - ex) → ex ≤ 971 → -1074 ≤ K ≤ 1023 →
  fbound (K + 1) (binary_round_aux prec emax s mx ex lx).
Proof.
  intros Hm Hex HK. unfold binary_round_aux.
  pose proof (shr_fexp_bound mx ex lx K Hm ltac:(lia)) as [H1 He1].
  destruct (shr_fexp prec emax mx ex lx) as [r1 e1]. simpl in H1, He1.
  pose proof (round_nearest_even_bound (shr_m r1) (loc_of_shr_record r1)) as Hr.
  set (m2 := round_nearest_even (shr_m r1) (loc_of_shr_record r1)) in *.
  assert (0 ≤ K - e1) by (eapply pow2_pos_inv; [apply H1|lia]).
  assert (Hm2 : 0 ≤ m2 < 2 ^ (K + 1 - e1)).
  { replace (K + 1 - e1) with (Z.succ (K - e1)) by lia.
    rewrite Z.pow_succ_r by done. lia. }
  pose proof (shr_fexp_bound m2 e1 loc_Exact (K + 1) Hm2 ltac:(lia)) as [H3 He3].
  destruct (shr_fexp prec emax m2 e1 loc_Exact) as [r3 e3]. simpl in H3, He3.
  destruct (shr_m r3) as [|m3|m3] eqn:Hm3; [exact I| |lia].
  replace (e3 <=? emax - prec) with true; [simpl; lia|].
  symmetry. apply Z.leb_le. unfold emax, prec. lia.
Qed.

Lemma fbound_mono K K' f : K ≤ K' → fbound K f → fbound K' f.
Proof.
  intros HK. destruct f as [| | |s m e]; simpl; try done.
  intros Hm. eapply Z.lt_le_trans; [done|].
  apply Z.pow_le_mono_r; [lia|].
  assert (0 ≤ K - e) by (eapply pow2_pos_inv; [done|lia]). lia.
Qed.

Lemma fbound_exp K s m e : fbound K (S754_finite s m e) → e < K.
Proof.
  simpl. intros Hm.
  destruct (Z_lt_le_dec e K); [done|].
  assert (2 ^ (K - e) ≤ 1); [|lia].
  destruct (Z.eq_dec K e) as [->|]; [by rewrite Z.sub_diag|].
  rewrite Z.pow_neg_r; lia.
Qed.

Lemma iter_xO m d : Z.pos (Pos.iter xO m d) = Z.pos m * 2 ^ Z.pos d.
Proof.
  induction d as [|d IH] using Pos.peano_ind.
  - simpl. lia.
  - rewrite Pos.iter_succ, Pos2Z.inj_xO, IH, Pos2Z.inj_succ.
    rewrite Z.pow_succ_r by lia. lia.
Qed.

Lemma shl_align_spec m e e' :
  let r := shl_align m e e' in
  r.2 ≤ e ∧ Z.pos r.1 = Z.pos m * 2 ^ (e - r.2).
Proof.
  unfold shl_align. destruct (e' - e) as [|d|d] eqn:Hd; simpl.
  - rewrite Z.sub_diag. lia.
  - rewrite Z.sub_diag. lia.
  - rewrite iter_xO. split; [lia|]. do 2 f_equal. lia.
Qed.

Lemma binary_round_bound s m e K :
  Z.pos m < 2 ^ (K - e) → e ≤ 971 → -1074 ≤ K ≤ 1023 →
  fbound (K + 1) (binary_round prec emax s m e).
Proof.
  intros Hm He HK. unfold binary_round.
  pose proof (shl_align_spec m e (fexp prec emax (Z.pos (digits2_pos m) + e)))
    as [He' Hmz].
  destruct (shl_align m e _) as [mz ez]. simpl in He', Hmz.
  apply binary_round_aux_bound; [|lia|done].
  split; [lia|]. rewrite Hmz.
  assert (0 ≤ K - e) by (eapply pow2_pos_inv; [done|lia]).
  replace (K - ez) with ((K - e) + (e - ez)) by lia.
  rewrite Z.pow_add_r by lia.
  apply Z.mul_lt_mono_pos_r; [apply Z.pow_pos_nonneg; lia|done].
Qed.

Lemma binary_normalize_bound m e sz K :
  Z.abs m < 2 ^ (K - e) → e ≤ 971 → -1074 ≤ K ≤ 1023 →
  fbound (K + 1) (binary_normalize prec emax m e sz).
Proof.
  intros Hm He HK. destruct m as [|p|p]; simpl; [done|..];
    by apply binary_round_bound.
Qed.

Lemma fmul_bound K1 K2 a b :
  fbound K1 a → fbound K2 b → -1074 ≤ K1 + K2 ≤ 973 →
  fbound (K1 + K2 + 1) (fmul a b).
Proof.
  intros Ha Hb HK.
  destruct a as [| | |sx mx ex], b as [| | |sy my ey]; try done.
  pose proof (fbound_exp _ _ _ _ Ha). pose proof (fbound_exp _ _ _ _ Hb).
  simpl in Ha, Hb. unfold fmul, SFmul.
  apply binary_round_aux_bound; [|lia..].
  split; [lia|]. rewrite Pos2Z.inj_mul.
  replace (K1 + K2 - (ex + ey)) with ((K1 - ex) + (K2 - ey)) by lia.
  rewrite Z.pow_add_r by lia.
  apply Z.mul_lt_mono_nonneg; lia.
Qed.

Lemma shl_align_fst m e e' :
  e' ≤ e → Z.pos (shl_align m e e').1 = Z.pos m * 2 ^ (e - e').
Proof.
  intros He. unfold shl_align. destruct (e' - e) as [|d|d] eqn:Hd; simpl; [|lia|].
  - replace (e - e') with 0 by lia. lia.
  - rewrite iter_xO. do 2 f_equal. lia.
Qed.

Lemma aligned_bound K s m e ez :
  fbound K (S754_finite s m e) → ez ≤ e →
  Z.abs (cond_Zopp s (Z.pos (shl_align m e ez).1)) < 2 ^ (K - ez).
Proof.
  intros Hb He. pose proof (fbound_exp _ _ _ _ Hb). simpl in Hb.
  rewrite shl_align_fst by done.
  replace (K - ez) with ((K - e) + (e - ez)) by lia.
  rewrite Z.pow_add_r by lia.
  assert (0 < 2 ^ (e - ez)) by (apply Z.pow_pos_nonneg; lia).
  destruct s; simpl; nia.
Qed.

Lemma pow2_double K : 0 ≤ K → 2 ^ (K + 1) = 2 * 2 ^ K.
Proof. intros. rewrite Z.add_1_r, Z.pow_succ_r; lia. Qed.

Lemma fadd_bound K a b :
  fbound K a → fbound K b → -1074 ≤ K ≤ 972 →
  fbound (K + 2) (fadd a b).
Proof.
  intros Ha Hb HK.
  destruct a as [sx| | |sx mx ex], b as [sy| | |sy my ey]; try done.
  - by destruct sx, sy.
  - apply (fbound_mono K (K + 2) (S754_finite sy my ey)); [lia|done].
  - apply (fbound_mono K (K + 2) (S754_finite sx mx ex)); [lia|done].
  - pose proof (fbound_exp _ _ _ _ Ha). pose proof (fbound_exp _ _ _ _ Hb).
    unfold fadd, SFadd.
    replace (K + 2) with ((K + 1) + 1) by lia.
    apply binary_normalize_bound; [|lia..].
    pose proof (aligned_bound K sx mx ex (Z.min ex ey) Ha ltac:(lia)).
    pose proof (aligned_bound K sy my ey (Z.min ex ey) Hb ltac:(lia)).
    replace (K + 1 - Z.min ex ey) with ((K - Z.min ex ey) + 1) by lia.
    rewrite pow2_double by lia.
    set (u := cond_Zopp sx _) in *. set (v := cond_Zopp sy _) in *.
    set (p := 2 ^ _) in *. clearbody u v p. lia.
Qed.

Lemma fsub_bound K a b :
  fbound K a → fbound K b → -1074 ≤ K ≤ 972 →
  fbound (K + 2) (fsub a b).
Proof.
  intros Ha Hb HK.
  destruct a as [sx| | |sx mx ex], b as [sy| | |sy my ey]; try done.
  - by destruct sx, sy.
  - apply (fbound_mono K (K + 2) (S754_finite (negb sy) my ey)); [lia|done].
  - apply (fbound_mono K (K + 2) (S754_finite sx mx ex)); [lia|done].
  - pose proof (fbound_exp _ _ _ _ Ha). pose proof (fbound_exp _ _ _ _ Hb).
    unfold fsub, SFsub.
    replace (K + 2) with ((K + 1) + 1) by lia.
    apply binary_normalize_bound; [|lia..].
    pose proof (aligned_bound K sx mx ex (Z.min ex ey) Ha ltac:(lia)).
    pose proof (aligned_bound K sy my ey (Z.min ex ey) Hb ltac:(lia)).
    replace (K + 1 - Z.min ex ey) with ((K - Z.min ex ey) + 1) by lia.
    rewrite pow2_double by lia.
    set (u := cond_Zopp sx _) in *. set (v := cond_Zopp sy _) in *.
    set (p := 2 ^ _) in *. clearbody u v p. lia.
Qed.

Lemma float_of_int_bound z K :
  Z.abs z < 2 ^ K → 0 ≤ K ≤ 1023 →
  ∃ f, float_of_int z = Ok f ∧ fbound (K + 1) f.
Proof.
  intros Hz HK. unfold float_of_int.
  pose proof (binary_normalize_bound z 0 false K) as Hb.
  rewrite Z.sub_0_r in Hb. specialize (Hb Hz ltac:(lia) ltac:(lia)).
  destruct (binary_normalize prec emax z 0 false); try done; eauto.
Qed.

Lemma digits_ge p : 2 ^ (Z.pos (digits2_pos p) - 1) ≤ Z.pos p.
Proof.
  rewrite digits2_size. pose proof (Pos.size_le p) as Hp.
  apply Pos2Z.pos_le_pos in Hp. rewrite Pos2Z.inj_pow in Hp.
  rewrite (Pos2Z.inj_xO p) in Hp.
  replace (Z.pos (Pos.size p)) with (Z.succ (Z.pos (Pos.size p) - 1)) in Hp by lia.
  rewrite Z.pow_succ_r in Hp by lia. lia.
Qed.

Lemma div_eucl_div_mod a b : Z.div_eucl a b = (a `div` b, a `mod` b).
Proof. unfold Z.div, Z.modulo. by destruct (Z.div_eucl a b). Qed.

Lemma div_core_spec m1 e1 m2 e2 :
  let e' := div_exp m1 e1 m2 e2 in
  SFdiv_core_binary prec emax (Z.pos m1) e1 (Z.pos m2) e2 =
    ((Z.pos m1 * 2 ^ (e1 - e2 - e')) `div` Z.pos m2, e',
     new_location (Z.pos m2) ((Z.pos m1 * 2 ^ (e1 - e2 - e')) `mod` Z.pos m2)).
Proof.
  intros e'. unfold SFdiv_core_binary. cbn [Zdigits2].
  change (Z.min _ (e1 - e2)) with e'.
  assert (He : e' ≤ e1 - e2) by (unfold e', div_exp; lia).
  assert (Hm : match e1 - e2 - e' with
               | Z.pos _ => Z.shiftl (Z.pos m1) (e1 - e2 - e')
               | 0 => Z.pos m1
               | Z.neg _ => 0
               end = Z.pos m1 * 2 ^ (e1 - e2 - e')).
  { destruct (e1 - e2 - e') as [|p|p] eqn:Hs; [lia| |lia].
    by rewrite Z.shiftl_mul_pow2. }
  rewrite Hm, div_eucl_div_mod. done.
Qed.

Lemma fdiv_bound K L sx mx ex sy my ey :
  fbound K (S754_finite sx mx ex) → 2 ^ (L - ey) ≤ Z.pos my → ey ≤ L →
  -1074 ≤ K - L ≤ 1023 →
  fbound (K - L + 1) (fdiv (S754_finite sx mx ex) (S754_finite sy my ey)).
Proof.
  intros Ha Hb HL HK. pose proof (fbound_exp _ _ _ _ Ha) as Hex. simpl in Ha.
  unfold fdiv, SFdiv. rewrite div_core_spec.
  set (e' := div_exp mx ex my ey).
  assert (Hd1 : Z.pos (digits2_pos mx) ≤ K - ex) by by apply digits_le.
  assert (Hd2 : L - ey < Z.pos (digits2_pos my)).
  { apply (Z.pow_lt_mono_r_iff 2); [lia..|].
    pose proof (digits_gt my). lia. }
  assert (He' : e' ≤ Z.max (K - L - 54) (-1074) ∧ e' ≤ ex - ey).
  { unfold e', div_exp. rewrite fexp_eq. lia. }
  apply binary_round_aux_bound; [|lia..].
  split; [apply Z.div_pos; lia|].
  apply Z.div_lt_upper_bound; [lia|].
  apply Z.lt_le_trans with (2 ^ (K - ex) * 2 ^ (ex - ey - e')).
  { apply Z.mul_lt_mono_pos_r; [apply Z.pow_pos_nonneg; lia|done]. }
  rewrite <- Z.pow_add_r by lia.
  replace (K - ex + (ex - ey - e')) with ((L - ey) + (K - L - e')) by lia.
  rewrite Z.pow_add_r by lia.
  apply Z.mul_le_mono_nonneg_r; [apply Z.pow_nonneg; lia|done].
Qed.

Lemma int_truediv_bound x n :
  0 ≤ x ≤ n → 0 < n → ∃ f, int_truediv x n = Ok f ∧ fbound 2 f.
Proof.
  intros Hx Hn. unfold int_truediv.
  destruct (Z.eqb_spec n 0) as [|_]; [lia|].
  destruct n as [|pn|pn]; [lia| |lia].
  destruct x as [|px|px]; [by eexists| |lia].
  assert (Hb : fbound 2 (fdiv (S754_finite false px 0) (S754_finite false pn 0))).
  { replace 2 with (Z.pos (digits2_pos pn) - (Z.pos (digits2_pos pn) - 1) + 1) by lia.
    apply fdiv_bound; [|rewrite Z.sub_0_r; apply digits_ge|lia..].
    simpl. rewrite Z.sub_0_r. pose proof (digits_gt pn). lia. }
  simpl Z2SF. destruct (fdiv _ _) eqn:Hf; try done; by eexists.
Qed.

Lemma int_of_bound K f :
  fbound K f → 0 ≤ K → ∃ z, int_of (Float f) = Ok z ∧ Z.abs z < 2 ^ K.
Proof.
  intros Hf HK. destruct f as [s| | |s m e]; try done.
  - exists 0. split; [done|]. simpl. apply Z.pow_pos_nonneg; lia.
  - pose proof (fbound_exp _ _ _ _ Hf). simpl in Hf.
    eexists. split; [done|].
    assert (0 ≤ Z.shiftl (Z.pos m) e < 2 ^ K); [|destruct s; simpl; lia].
    destruct (Z_lt_le_dec e 0).
    + rewrite Z.shiftl_div_pow2 by lia. split; [apply Z.div_pos; lia|].
      apply Z.div_lt_upper_bound; [apply Z.pow_pos_nonneg; lia|].
      rewrite <- Z.pow_add_r by lia. by replace (- e + K) with (K - e) by lia.
    + rewrite Z.shiftl_mul_pow2 by lia. split; [lia|].
      assert (2 ^ K = 2 ^ (K - e) * 2 ^ e) as ->.
      { rewrite <- Z.pow_add_r by lia. f_equal. lia. }
      apply Z.mul_lt_mono_pos_r; [apply Z.pow_pos_nonneg; lia|done].
Qed.

Lemma int_truediv_self n : 0 < n → int_truediv n n = Ok f1_0.
Proof.
  intros Hn. unfold int_truediv.
  destruct (Z.eqb_spec n 0) as [|_]; [lia|].
  destruct n as [|p|p]; [lia| |lia]. simpl Z2SF.
  unfold fdiv, SFdiv. rewrite div_core_spec.
  assert (He : div_exp p 0 p 0 = -53).
  { unfold div_exp. rewrite Z.sub_diag. done. }
  rewrite He.
  replace (0 - 0 - -53) with 53 by done.
  rewrite Z.mul_comm, Z.div_mul, Z.mod_mul by lia.
  assert (Hl : new_location (Z.pos p) 0 = loc_Exact).
  { unfold new_location. by destruct (Z.even (Z.pos p)). }
  rewrite Hl. by vm_compute.
Qed.

Lemma int_truediv_zero n : 0 < n → int_truediv 0 n = Ok (S754_zero false).
Proof.
  intros Hn. unfold int_truediv.
  destruct (Z.eqb_spec n 0) as [|_]; [lia|].
  destruct n as [|p|p]; [lia|done|lia].
Qed.

Lemma nbound_mono K K' a : K ≤ K' → 0 ≤ K → nbound K a → nbound K' a.
Proof.
  intros HK H0. destruct a as [z|f]; simpl; [|by apply fbound_mono].
  intros Hz. eapply Z.lt_le_trans; [done|]. apply Z.pow_le_mono_r; lia.
Qed.

Lemma to_float_bound K a :
  nbound K a → 0 ≤ K ≤ 1023 → ∃ f, to_float a = Ok f ∧ fbound (K + 1) f.
Proof.
  intros Ha HK. destruct a as [z|f]; simpl.
  - by apply float_of_int_bound.
  - exists f. split; [done|]. eapply fbound_mono; [|done]. lia.
Qed.

Lemma mul_bound K1 K2 a b :
  nbound K1 a → nbound K2 b → 0 ≤ K1 → 0 ≤ K2 → K1 + K2 ≤ 970 →
  ∃ c, mul a b = Ok c ∧ nbound (K1 + K2 + 3) c.
Proof.
  intros Ha Hb H1 H2 HK.
  destruct (to_float_bound K1 a Ha ltac:(lia)) as (fa & Hfa & Hba).
  destruct (to_float_bound K2 b Hb ltac:(lia)) as (fb & Hfb & Hbb).
  assert (Hf : fbound (K1 + K2 + 3) (fmul fa fb)).
  { replace (K1 + K2 + 3) with ((K1 + 1) + (K2 + 1) + 1) by lia.
    apply fmul_bound; [done..|lia]. }
  unfold mul, arith.
  destruct a as [x|x], b as [y|y]; simpl in Hfa, Hfb |- *;
    rewrite ?Hfa, ?Hfb; simpl; try (by eexists); simplify_eq; try (by eexists).
  exists (Int (x * y)). split; [done|]. simpl in *.
  rewrite Z.abs_mul.
  apply Z.lt_le_trans with (2 ^ K1 * 2 ^ K2); [nia|].
  rewrite <- Z.pow_add_r by lia. apply Z.pow_le_mono_r; lia.
Qed.

Lemma addsub_bound K a b :
  nbound K a → nbound K b → 0 ≤ K ≤ 970 →
  (∃ c, add a b = Ok c ∧ nbound (K + 3) c) ∧
  (∃ c, sub a b = Ok c ∧ nbound (K + 3) c).
Proof.
  intros Ha Hb HK.
  destruct (to_float_bound K a Ha ltac:(lia)) as (fa & Hfa & Hba).
  destruct (to_float_bound K b Hb ltac:(lia)) as (fb & Hfb & Hbb).
  assert (Hf : fbound (K + 3) (fadd fa fb) ∧ fbound (K + 3) (fsub fa fb)).
  { replace (K + 3) with ((K + 1) + 2) by lia.
    split; [apply fadd_bound|apply fsub_bound]; done || lia. }
  destruct Hf as [Hf1 Hf2].
  unfold add, sub, arith.
  destruct a as [x|x], b as [y|y]; simpl in Hfa, Hfb |- *;
    rewrite ?Hfa, ?Hfb; simpl; simplify_eq; try (split; by eexists).
  simpl in *.
  assert (Hp : 2 ^ (K + 1) ≤ 2 ^ (K + 3)) by (apply Z.pow_le_mono_r; lia).
  rewrite pow2_double in Hp by lia.
  split; eexists; (split; [done|]); simpl; lia.
Qed.

Lemma int_of_nbound K a :
  nbound K a → 0 ≤ K → ∃ z, int_of a = Ok z ∧ Z.abs z < 2 ^ K.
Proof.
  intros Ha HK. destruct a as [z|f]; [by exists z|by apply int_of_bound].
Qed.

Lemma truediv_int_bound x n :
  0 ≤ x ≤ n → 0 < n → ∃ f, truediv (Int x) (Int n) = Ok (Float f) ∧ fbound 2 f.
Proof.
  intros Hx Hn. destruct (int_truediv_bound x n Hx Hn) as (f & Hf & Hb).
  exists f. simpl. by rewrite Hf.
Qed.

Lemma fraction_bound i size :
  0 ≤ i < size → ∃ t, fraction i size = Ok t ∧ nbound 2 t.
Proof.
  intros Hi. unfold fraction. destruct (Z.gtb_spec size 1).
  - destruct (truediv_int_bound i (size - 1)) as (f & Hf & Hb); [lia..|].
    by exists (Float f).
  - by exists (Int 0).
Qed.

Lemma bind_Ok {A B} (a : A) (f : A → result B) : Ok a ≫= f = f a.
Proof. done. Qed.

Lemma interpolate_bound k T c0 c1 t :
  Z.abs c0 < 2 ^ k → Z.abs c1 < 2 ^ k → nbound T t →
  0 ≤ k → 0 ≤ T → k + T ≤ 900 →
  ∃ z, interpolate c0 c1 t = Ok z ∧ Z.abs z < 2 ^ (k + T + 7).
Proof.
  intros H0 H1 Ht Hk HT HkT. unfold interpolate.
  assert (Hd : nbound (k + 1) (Int (c1 - c0))).
  { simpl. rewrite pow2_double by lia. lia. }
  destruct (mul_bound (k + 1) T _ _ Hd Ht) as (d & -> & Hbd); [lia..|].
  rewrite bind_Ok.
  assert (Hc : nbound (k + 1 + T + 3) (Int c0)).
  { apply (nbound_mono k); [lia..|done]. }
  destruct (addsub_bound _ _ _ Hc Hbd) as [(s & -> & Hs) _]; [lia|].
  rewrite bind_Ok.
  replace (k + T + 7) with (k + 1 + T + 3 + 3) by lia.
  apply int_of_nbound; [done|lia].
Qed.

End PyFacts.

(* ===================================================================== *)
(** * Facts about loops and rasters                                       *)
(* ===================================================================== *)

Module PILFacts.
Import Py PIL PyFacts.

Lemma for_each_app {A St} (l1 l2 : list A) (body : A → St → result St) s :
  for_each (l1 ++ l2) body s = for_each l1 body s ≫= for_each l2 body.
Proof.
  revert s. induction l1 as [|a l1 IH]; intros s; simpl; [done|].
  destruct (body a s); simpl; [apply IH|done].
Qed.

(** The invariant rule for [for i in range(n)]. *)
Lemma for_range_inv {St} (P : Z → St → Prop) (body : Z → St → result St) n s :
  0 ≤ n → P 0 s →
  (∀ i s, 0 ≤ i < n → P i s → ∃ s', body i s = Ok s' ∧ P (i + 1) s') →
  ∃ s', for_each (range n) body s = Ok s' ∧ P n s'.
Proof.
  intros Hn H0 Hstep. unfold range.
  assert (Hk : ∀ k : nat, Z.of_nat k ≤ n →
    ∃ s', for_each (seqZ 0 (Z.of_nat k)) body s = Ok s' ∧ P (Z.of_nat k) s').
  { induction k as [|k IH]; intros Hle.
    - exists s. by rewrite seqZ_nil by (simpl; lia).
    - destruct IH as (s1 & Hs1 & HP1); [lia|].
      rewrite seqZ_S, for_each_app, Hs1, bind_Ok, Z.add_0_l. cbn [for_each].
      destruct (Hstep (Z.of_nat k) s1) as (s2 & -> & HP2); [lia|done|].
      exists s2. split; [done|].
      by replace (Z.of_nat (S k)) with (Z.of_nat k + 1) by lia. }
  specialize (Hk (Z.to_nat n)). rewrite Z2Nat.id in Hk by done.
  apply Hk. lia.
Qed.

Lemma raster_rows_lookup w (f : Z → Z → pixel) x :
  0 ≤ x < w → ∀ (j : nat) y0 n, Z.of_nat j < n →
  (seqZ y0 n ≫= (λ y, (λ x, f x y) <$> seqZ 0 w))
    !! (j * Z.to_nat w + Z.to_nat x)%nat = Some (f x (y0 + Z.of_nat j)).
Proof.
  intros Hx. induction j as [|j IH]; intros y0 n Hn.
  - rewrite (seqZ_cons y0 n), bind_cons by lia.
    rewrite lookup_app_l by (rewrite length_fmap, length_seqZ; lia).
    rewrite list_lookup_fmap, lookup_seqZ_lt by lia. simpl.
    do 2 f_equal; lia.
  - rewrite (seqZ_cons y0 n), bind_cons by lia.
    rewrite lookup_app_r by (rewrite length_fmap, length_seqZ; lia).
    rewrite length_fmap, length_seqZ.
    replace (S j * Z.to_nat w + Z.to_nat x - Z.to_nat w)%nat
      with (j * Z.to_nat w + Z.to_nat x)%nat by lia.
    rewrite IH by lia. do 2 f_equal. lia.
Qed.

Lemma raster_lookup w h f x y :
  0 ≤ x < w → 0 ≤ y < h →
  raster w h f !! Z.to_nat (y * w + x) = Some (f x y).
Proof.
  intros Hx Hy. unfold raster.
  replace (Z.to_nat (y * w + x))
    with (Z.to_nat y * Z.to_nat w + Z.to_nat x)%nat by nia.
  rewrite (raster_rows_lookup w f x Hx (Z.to_nat y) 0 h) by lia.
  do 2 f_equal. lia.
Qed.

Lemma length_raster w h f :
  0 ≤ w → 0 ≤ h → length (raster w h f) = Z.to_nat (w * h).
Proof.
  intros Hw Hh. unfold raster.
  assert (Hk : ∀ (k : nat) y0,
    length (seqZ y0 (Z.of_nat k) ≫= (λ y, (λ x, f x y) <$> seqZ 0 w))
    = (k * Z.to_nat w)%nat).
  { induction k as [|k IH]; intros y0; [by rewrite (seqZ_nil y0) by (simpl; lia)|].
    rewrite (seqZ_cons y0), bind_cons, length_app, length_fmap, length_seqZ by lia.
    replace (Z.pred (Z.of_nat (S k))) with (Z.of_nat k) by lia.
    rewrite IH. lia. }
  specialize (Hk (Z.to_nat h) 0). rewrite Z2Nat.id in Hk by done.
  rewrite Hk. nia.
Qed.

Lemma inside_spec im x y :
  inside im x y = true ↔ 0 ≤ x < im_width im ∧ 0 ≤ y < im_height im.
Proof. unfold inside. rewrite !andb_true_iff, !Z.leb_le, !Z.ltb_lt. lia. Qed.

Lemma px_raster m w h f x y :
  0 ≤ x < w → 0 ≤ y < h → px (mkImage m w h (raster w h f)) x y = f x y.
Proof.
  intros Hx Hy. unfold px.
  rewrite (proj2 (inside_spec _ x y)) by done.
  unfold offset. simpl. by rewrite raster_lookup.
Qed.

Lemma px_outside im x y : inside im x y = false → px im x y = transparent.
Proof. unfold px. by intros ->. Qed.

Lemma new_ok m w h c :
  0 ≤ w → 0 ≤ h →
  new m w h c = Ok (mkImage m w h (replicate (Z.to_nat (w * h)) (ink m c))).
Proof.
  intros Hw Hh. unfold new.
  destruct (Z.ltb_spec w 0); [lia|]. destruct (Z.ltb_spec h 0); [lia|done].
Qed.

Lemma offset_lt im x y :
  wf im → inside im x y = true → (offset im x y < length (im_data im))%nat.
Proof.
  intros (Hw & Hh & ->) [Hx Hy]%inside_spec. unfold offset. nia.
Qed.

Lemma px_replicate m w h p x y :
  0 ≤ x < w → 0 ≤ y < h →
  px (mkImage m w h (replicate (Z.to_nat (w * h)) p)) x y = p.
Proof.
  intros Hx Hy. unfold px.
  rewrite (proj2 (inside_spec _ x y)) by done.
  unfold offset. simpl. rewrite lookup_replicate_2 by nia. done.
Qed.

Lemma wf_replicate m w h p :
  0 ≤ w → 0 ≤ h → wf (mkImage m w h (replicate (Z.to_nat (w * h)) p)).
Proof. intros. repeat split; simpl; try done. by rewrite length_replicate. Qed.

Lemma wf_raster m w h f : 0 ≤ w → 0 ≤ h → wf (mkImage m w h (raster w h f)).
Proof. intros. repeat split; simpl; try done. by rewrite length_raster. Qed.

Lemma putpixel_spec im x y c :
  wf im → inside im x y = true →
  ∃ im', putpixel im x y c = Ok im' ∧ wf im' ∧ same_shape im' im ∧
    ∀ x' y', px im' x' y' =
      if bool_decide (x' = x ∧ y' = y) then ink (im_mode im) c else px im x' y'.
Proof.
  intros Hwf Hin. pose proof Hin as [Hx Hy]%inside_spec.
  unfold putpixel.
  destruct (Z.ltb_spec x 0); [lia|]. destruct (Z.ltb_spec y 0); [lia|].
  rewrite Hin. eexists. split; [done|].
  split; [|split; [done|]].
  { destruct Hwf as (? & ? & Hl). repeat split; simpl; try done.
    by rewrite length_insert. }
  intros x' y'. unfold px, inside, offset. simpl.
  fold (inside im x' y'). fold (offset im x' y'). fold (offset im x y).
  case_bool_decide as Heq.
  - destruct Heq as [-> ->]. rewrite Hin.
    rewrite list_lookup_insert_eq by by apply offset_lt. done.
  - destruct (inside im x' y') eqn:Hin'; [|done].
    rewrite list_lookup_insert_ne; [done|].
    apply inside_spec in Hin'. unfold offset. intros Ho.
    apply Heq. destruct Hwf as (? & ? & _).
    apply Z2Nat.inj in Ho; [|nia..].
    assert (y' = y); [|subst; lia].
    destruct (Z.lt_trichotomy y y') as [?|[?|?]]; [|done|]; exfalso; nia.
Qed.

Lemma same_shape_refl im : same_shape im im.
Proof. done. Qed.

Lemma same_shape_trans a b c : same_shape a b → same_shape b c → same_shape a c.
Proof. unfold same_shape. intros (-> & -> & ->) (-> & -> & ->). done. Qed.

(** One row painted by the inner loop. *)
Lemma paint_row im0 y (col : Z → result color) (c : Z → color) :
  wf im0 → 0 ≤ y < im_height im0 →
  (∀ x, 0 ≤ x < im_width im0 → col x = Ok (c x)) →
  ∃ im', for_each (range (im_width im0))
           (λ x img, cl ← col x; putpixel img x y cl) im0 = Ok im' ∧
    wf im' ∧ same_shape im' im0 ∧
    ∀ x' y', px im' x' y' =
      if bool_decide (y' = y ∧ 0 ≤ x' < im_width im0)
      then ink (im_mode im0) (c x') else px im0 x' y'.
Proof.
  intros Hwf Hy Hcol.
  destruct (for_range_inv
    (λ i img, wf img ∧ same_shape img im0 ∧
       ∀ x' y', px img x' y' =
         if bool_decide (y' = y ∧ 0 ≤ x' < i)
         then ink (im_mode im0) (c x') else px im0 x' y')
    (λ x img, cl ← col x; putpixel img x y cl) (im_width im0) im0)
    as (im' & Him' & HP); [by destruct Hwf| |..].
  - split; [done|]. split; [done|]. intros x' y'.
    case_bool_decide; [lia|done].
  - intros i img Hi (Hwi & Hsh & Hpx). rewrite Hcol, bind_Ok by done.
    destruct Hsh as (Hm & Hw' & Hh').
    destruct (putpixel_spec img i y (c i) Hwi) as (img' & -> & Hw2 & Hs2 & Hp2).
    { apply inside_spec. lia. }
    exists img'. split; [done|]. split; [done|].
    split; [by eapply same_shape_trans|].
    intros x' y'. rewrite Hp2, Hpx, Hm.
    repeat case_bool_decide; try done; try lia.
    by destruct_and!; subst.
  - by exists im'.
Qed.

(** All rows painted by the outer loop. *)
Lemma paint_image im0 (body : Z → Image → result Image) (c : Z → Z → color) :
  wf im0 →
  (∀ y img, 0 ≤ y < im_height im0 → wf img → same_shape img im0 →
     ∃ img', body y img = Ok img' ∧ wf img' ∧ same_shape img' im0 ∧
       ∀ x' y', px img' x' y' =
         if bool_decide (y' = y ∧ 0 ≤ x' < im_width im0)
         then ink (im_mode im0) (c x' y) else px img x' y') →
  ∃ im', for_each (range (im_height im0)) body im0 = Ok im' ∧
    wf im' ∧ same_shape im' im0 ∧
    ∀ x y, 0 ≤ x < im_width im0 → 0 ≤ y < im_height im0 →
      px im' x y = ink (im_mode im0) (c x y).
Proof.
  intros Hwf Hbody.
  destruct (for_range_inv
    (λ i img, wf img ∧ same_shape img im0 ∧
       ∀ x y, 0 ≤ x < im_width im0 → 0 ≤ y < i →
         px img x y = ink (im_mode im0) (c x y))
    body (im_height im0) im0) as (im' & Him' & HP);
    [by destruct Hwf as (? & ? & ?)| |..].
  - split; [done|]. split; [done|]. intros; lia.
  - intros i img Hi (Hwi & Hsh & Hpx).
    destruct (Hbody i img Hi Hwi Hsh) as (img' & -> & Hw2 & Hs2 & Hp2).
    exists img'. split; [done|]. split; [done|]. split; [done|].
    intros x y Hx Hy. rewrite Hp2. case_bool_decide as Hd.
    + by destruct Hd as [-> _].
    + apply Hpx; lia.
  - exists im'. destruct HP as (? & ? & Hpx). eauto 10 with lia.
Qed.

Lemma px_remap im f x y :
  wf im → px (remap im f) x y = if inside im x y then f x y else transparent.
Proof.
  intros (Hw & Hh & _). destruct (inside im x y) eqn:Hin.
  - apply inside_spec in Hin as [? ?]. unfold remap, with_data. by apply px_raster.
  - by apply px_outside.
Qed.

Lemma wf_remap im f : wf im → wf (remap im f).
Proof. intros (Hw & Hh & _). by apply wf_raster. Qed.

End PILFacts.

(* ===================================================================== *)
(** * The two gradient backgrounds                                        *)
(* ===================================================================== *)

Module GradientFacts.
Import Py PIL Expr PyFacts PILFacts.

Lemma gradient_color_ok size x y :
  0 ≤ x < size → 0 ≤ y < size → ∃ c, Full.gradient_color size x y = Ok c.
Proof.
  intros Hx Hy. unfold Full.gradient_color.
  destruct (fraction_bound x size Hx) as (tx & -> & Htx).
  destruct (fraction_bound y size Hy) as (ty & -> & Hty).
  rewrite !bind_Ok.
  assert (Hi : ∀ c0 c1, Z.abs c0 < 2 ^ 7 → Z.abs c1 < 2 ^ 7 →
    ∃ z, interpolate c0 c1 tx = Ok z ∧ Z.abs z < 2 ^ 16).
  { intros c0 c1 H0 H1.
    apply (interpolate_bound 7 2 c0 c1 tx); done || lia. }
  assert (Hj : ∀ c0 c1, Z.abs c0 < 2 ^ 16 → Z.abs c1 < 2 ^ 16 →
    ∃ z, interpolate c0 c1 ty = Ok z).
  { intros c0 c1 H0 H1.
    destruct (interpolate_bound 16 2 c0 c1 ty) as (z & ? & _); done || lia || eauto. }
  unfold Full.color_tl, Full.color_tr, Full.color_bl, Full.color_br. simpl fst. simpl snd.
  destruct (Hi 20 35) as (tr & -> & ?); [done..|].
  destruct (Hi 45 40) as (tg & -> & ?); [done..|].
  destruct (Hi 55 70) as (tb & -> & ?); [done..|].
  destruct (Hi 25 55) as (br & -> & ?); [done..|].
  destruct (Hi 50 30) as (bg & -> & ?); [done..|].
  destruct (Hi 65 75) as (bb & -> & ?); [done..|].
  rewrite !bind_Ok.
  destruct (Hj tr br) as (r & ->); [done..|].
  destruct (Hj tg bg) as (g & ->); [done..|].
  destruct (Hj tb bb) as (b & ->); [done..|].
  rewrite !bind_Ok. eauto.
Qed.

Lemma full_gradient_spec size :
  0 ≤ size →
  ∃ im, Full.create_gradient_background size = Ok im ∧ wf im ∧
    im_mode im = RGBA ∧ im_width im = size ∧ im_height im = size ∧
    ∀ x y, 0 ≤ x < size → 0 ≤ y < size →
      ∃ c, Full.gradient_color size x y = Ok c ∧ px im x y = ink RGBA c.
Proof.
  intros Hs. unfold Full.create_gradient_background.
  rewrite new_ok, bind_Ok by done.
  set (im0 := mkImage RGBA size size _).
  assert (Hwf0 : wf im0) by by apply wf_replicate.
  destruct (paint_image im0
    (λ y img, for_each (range size) (λ x img,
       c ← Full.gradient_color size x y; putpixel img x y c) img)
    (λ x y, ok_or (C3 0 0 0) (Full.gradient_color size x y)) Hwf0)
    as (im' & Him' & Hwf' & (Hm & Hw & Hh) & Hpx).
  - intros y img Hy Hwi (Hm & Hw & Hh). simpl in Hy, Hw, Hh.
    destruct (paint_row img y (λ x, Full.gradient_color size x y)
      (λ x, ok_or (C3 0 0 0) (Full.gradient_color size x y)) Hwi)
      as (img' & Himg' & Hw2 & Hs2 & Hp2); [lia| |].
    { intros x Hx. rewrite Hw in Hx.
      destruct (gradient_color_ok size x y) as (c & ->); done. }
    rewrite Hw in Himg'. exists img'. split; [done|]. split; [done|].
    split; [by eapply same_shape_trans|].
    intros x' y'. rewrite Hp2, Hm, Hw. done.
  - exists im'. repeat (split; [done|]).
    intros x y Hx Hy. destruct (gradient_color_ok size x y) as (c & Hc); [done..|].
    exists c. split; [done|]. rewrite Hpx by done. simpl. by rewrite Hc.
Qed.

Lemma fraction_first size :
  1 < size → fraction 0 size = Ok (Float (S754_zero false)).
Proof.
  intros Hs. unfold fraction. destruct (Z.gtb_spec size 1); [|lia].
  simpl. by rewrite int_truediv_zero by lia.
Qed.

Lemma fraction_last size :
  1 < size → fraction (size - 1) size = Ok (Float f1_0).
Proof.
  intros Hs. unfold fraction. destruct (Z.gtb_spec size 1); [|lia].
  simpl. by rewrite int_truediv_self by lia.
Qed.

Lemma fraction_degenerate i size : size ≤ 1 → fraction i size = Ok (Int 0).
Proof. intros Hs. unfold fraction. by destruct (Z.gtb_spec size 1); [lia|]. Qed.

Lemma full_corners size :
  1 < size →
  Full.gradient_color size 0 0 = Ok (C4 20 45 55 255) ∧
  Full.gradient_color size (size - 1) 0 = Ok (C4 35 40 70 255) ∧
  Full.gradient_color size 0 (size - 1) = Ok (C4 25 50 65 255) ∧
  Full.gradient_color size (size - 1) (size - 1) = Ok (C4 55 30 75 255).
Proof.
  intros Hs. unfold Full.gradient_color.
  rewrite fraction_first, fraction_last by done. by vm_compute.
Qed.

Lemma int_of_truncates s m e :
  int_of (Float (S754_finite s m e)) =
    Ok (Z.quot (cond_Zopp s (Z.pos m * 2 ^ Z.max 0 e)) (2 ^ Z.max 0 (- e))).
Proof.
  simpl. f_equal. destruct (Z_lt_le_dec e 0).
  - rewrite Z.shiftl_div_pow2 by lia.
    replace (Z.max 0 e) with 0 by lia. replace (Z.max 0 (- e)) with (- e) by lia.
    rewrite Z.pow_0_r, Z.mul_1_r.
    assert (0 < 2 ^ (- e)) by (apply Z.pow_pos_nonneg; lia).
    destruct s; unfold cond_Zopp.
    + rewrite Z.quot_opp_l by lia.
      by rewrite Z.quot_div_nonneg by lia.
    + by rewrite Z.quot_div_nonneg by lia.
  - rewrite Z.shiftl_mul_pow2 by lia.
    replace (Z.max 0 e) with e by lia. replace (Z.max 0 (- e)) with 0 by lia.
    by rewrite Z.pow_0_r, Z.quot_1_r.
Qed.

Lemma truediv_gradient_end ty :
  nbound 2 ty →
  ∃ t, truediv ty (Float Fallback.gradient_end) = Ok t ∧ nbound 5 t.
Proof.
  intros Hty.
  destruct (to_float_bound 2 ty Hty ltac:(lia)) as (f & Hf & Hb).
  assert (Ht : truediv ty (Float Fallback.gradient_end)
               = Ok (Float (fdiv f Fallback.gradient_end))).
  { destruct ty; simpl in Hf |- *; by rewrite ?Hf; simplify_eq. }
  rewrite Ht. eexists. split; [done|]. simpl.
  destruct f as [s| | |s m e]; try done.
  replace 5 with (3 - (-1) + 1) by done.
  apply fdiv_bound; done || lia.
Qed.

Lemma le_gradient_end ty :
  nbound 2 ty → ∃ b, le ty (Float Fallback.gradient_end) = Ok b.
Proof.
  intros Hty.
  destruct (to_float_bound 2 ty Hty ltac:(lia)) as (f & Hf & Hb).
  destruct ty; simpl in Hf |- *; rewrite ?Hf; simplify_eq; by eexists.
Qed.

Lemma row_color_ok size y :
  0 ≤ y < size → ∃ c, Fallback.row_color size y = Ok c.
Proof.
  intros Hy. unfold Fallback.row_color.
  destruct (fraction_bound y size Hy) as (ty & -> & Hty). rewrite bind_Ok.
  destruct (le_gradient_end ty Hty) as (b & ->). rewrite bind_Ok.
  destruct b; [|by eexists].
  destruct (truediv_gradient_end ty Hty) as (t & -> & Ht). rewrite bind_Ok.
  assert (Hi : ∀ c0 c1, Z.abs c0 < 2 ^ 7 → Z.abs c1 < 2 ^ 7 →
    ∃ z, interpolate c0 c1 t = Ok z).
  { intros c0 c1 H0 H1.
    destruct (interpolate_bound 7 5 c0 c1 t) as (z & ? & _); done || lia || eauto. }
  unfold Fallback.color_top, Fallback.color_bottom. simpl fst. simpl snd.
  destruct (Hi 57 34) as (r & ->); [done..|].
  destruct (Hi 62 36) as (g & ->); [done..|].
  destruct (Hi 62 43) as (b & ->); [done..|].
  rewrite !bind_Ok. eauto.
Qed.

Lemma fallback_gradient_spec size :
  0 ≤ size →
  ∃ im, Fallback.create_gradient_background size = Ok im ∧ wf im ∧
    im_mode im = RGB ∧ im_width im = size ∧ im_height im = size ∧
    ∀ x y, 0 ≤ x < size → 0 ≤ y < size →
      ∃ c, Fallback.row_color size y = Ok c ∧ px im x y = ink RGB c.
Proof.
  intros Hs. unfold Fallback.create_gradient_background.
  rewrite new_ok, bind_Ok by done.
  set (im0 := mkImage RGB size size _).
  assert (Hwf0 : wf im0) by by apply wf_replicate.
  destruct (paint_image im0
    (λ y img, c ← Fallback.row_color size y;
              for_each (range size) (λ x img, putpixel img x y c) img)
    (λ x y, ok_or (C3 0 0 0) (Fallback.row_color size y)) Hwf0)
    as (im' & Him' & Hwf' & (Hm & Hw & Hh) & Hpx).
  - intros y img Hy Hwi (Hm & Hw & Hh). simpl in Hy, Hw, Hh.
    destruct (row_color_ok size y Hy) as (c & Hc). rewrite Hc, bind_Ok.
    destruct (paint_row img y (λ _, Ok c) (λ _, c) Hwi)
      as (img' & Himg' & Hw2 & Hs2 & Hp2); [lia|done|].
    rewrite Hw in Himg'. exists img'. split; [exact Himg'|]. split; [done|].
    split; [by eapply same_shape_trans|].
    intros x' y'. rewrite Hp2, Hm, Hw. done.
  - exists im'. repeat (split; [done|]).
    intros x y Hx Hy. destruct (row_color_ok size y) as (c & Hc); [done..|].
    exists c. split; [done|]. rewrite Hpx by done. simpl. by rewrite Hc.
Qed.

Lemma row_color_top size :
  1 < size → Fallback.row_color size 0 = Ok (C3 57 62 62).
Proof.
  intros Hs. unfold Fallback.row_color. rewrite fraction_first by done.
  by vm_compute.
Qed.

Lemma SFleb_antisym_pos a m e :
  SFleb a (S754_finite false m e) = true →
  SFleb (S754_finite false m e) a = true → a = S754_finite false m e.
Proof.
  unfold SFleb. destruct a as [s|s| |s m' e']; cbn [SFcompare]; try done;
    try (by destruct s).
  destruct s; [done|].
  rewrite !Pos.compare_cont_spec. cbn [Pos.switch_Eq].
  rewrite (Z.compare_antisym e' e), (Pos.compare_antisym m' m).
  destruct (Z.compare_spec e' e) as [->|?|?]; cbn [CompOpp]; try done.
  destruct (Pos.compare_spec m' m) as [->|?|?]; cbn [CompOpp]; done.
Qed.

Lemma SFleb_antisym_gradient_end ty :
  SFleb ty Fallback.gradient_end = true →
  SFleb Fallback.gradient_end ty = true → ty = Fallback.gradient_end.
Proof. apply SFleb_antisym_pos. Qed.

(** A row whose fraction is at or beyond the stop takes the bottom colour. *)
Lemma row_color_bottom size y ty :
  fraction y size = Ok (Float ty) →
  SFleb Fallback.gradient_end ty = true →
  Fallback.row_color size y = Ok (C3 34 36 43).
Proof.
  intros Hty Hle. unfold Fallback.row_color. rewrite Hty, bind_Ok.
  simpl le. rewrite bind_Ok.
  destruct (SFleb ty Fallback.gradient_end) eqn:Hle'; [|done].
  rewrite (SFleb_antisym_gradient_end ty Hle' Hle). by vm_compute.
Qed.

End GradientFacts.

(* ===================================================================== *)
(** * Exceptions that cannot occur                                        *)
(* ===================================================================== *)

Module ExnFacts.
Import Py PIL Expr PyFacts PILFacts.

(** ** Which exceptions the arithmetic can raise *)

Lemma raises_bind {A B} k (r : result A) (f : A → result B) :
  ¬ raises k r → (∀ a, r = Ok a → ¬ raises k (f a)) → ¬ raises k (r ≫= f).
Proof.
  intros Hr Hf. destruct r as [a|e]; [by apply Hf|].
  intros [m Hm]. apply Hr. exists m. cbn in Hm. by simplify_eq.
Qed.

Lemma raises_Ok {A} k (a : A) : ¬ raises k (Ok a).
Proof. by intros [m Hm]. Qed.

Lemma raises_other {A} k k' m : k ≠ k' → ¬ raises (A:=A) k (Raise (k', m)).
Proof. intros Hk [m' Hm]. congruence. Qed.

Lemma to_float_no_zde a : ¬ raises ZeroDivisionError (to_float a).
Proof.
  destruct a as [z|f]; [|apply raises_Ok]. unfold to_float, float_of_int.
  destruct (binary_normalize prec emax z 0 false);
    (apply raises_Ok || by apply raises_other).
Qed.

Lemma arith_no_zde iop fop a b : ¬ raises ZeroDivisionError (arith iop fop a b).
Proof.
  unfold arith.
  assert (¬ raises ZeroDivisionError
    (x ← to_float a; y ← to_float b; Ok (Float (fop x y)))).
  { apply raises_bind; [apply to_float_no_zde|]. intros x _.
    apply raises_bind; [apply to_float_no_zde|]. intros y _. apply raises_Ok. }
  destruct a, b; try done. apply raises_Ok.
Qed.


Lemma int_of_no_zde a : ¬ raises ZeroDivisionError (int_of a).
Proof.
  destruct a as [z|[]]; try apply raises_Ok; by apply raises_other.
Qed.

Lemma int_truediv_no_zde x y :
  y ≠ 0 → ¬ raises ZeroDivisionError (truediv (Int x) (Int y)).
Proof.
  intros Hy. unfold truediv, int_truediv.
  destruct (Z.eqb_spec y 0); [done|].
  destruct (fdiv (Z2SF x) (Z2SF y));
    (apply raises_Ok || by apply raises_other).
Qed.

Lemma for_each_no_raise {A St} k (xs : list A) (body : A → St → result St) :
  (∀ x s, x ∈ xs → ¬ raises k (body x s)) →
  ∀ s, ¬ raises k (for_each xs body s).
Proof.
  induction xs as [|x xs IH]; intros Hb s; [apply raises_Ok|].
  cbn [for_each]. apply raises_bind; [apply Hb; by left|].
  intros s' _. apply IH. intros x' s'' Hx'. apply Hb. by right.
Qed.

Lemma new_no_zde m w h c : ¬ raises ZeroDivisionError (new m w h c).
Proof. unfold new. destruct (_ || _); [by apply raises_other|apply raises_Ok]. Qed.

Lemma putpixel_no_zde im x y c : ¬ raises ZeroDivisionError (putpixel im x y c).
Proof.
  unfold putpixel. destruct (inside _ _ _); [apply raises_Ok|by apply raises_other].
Qed.

Lemma fraction_no_zde i size : ¬ raises ZeroDivisionError (fraction i size).
Proof.
  unfold fraction. destruct (Z.gtb_spec size 1); [|apply raises_Ok].
  apply int_truediv_no_zde. lia.
Qed.

Lemma interpolate_no_zde c0 c1 t : ¬ raises ZeroDivisionError (interpolate c0 c1 t).
Proof.
  unfold interpolate. apply raises_bind; [apply arith_no_zde|]. intros d _.
  apply raises_bind; [apply arith_no_zde|]. intros s _. apply int_of_no_zde.
Qed.

Lemma full_gradient_no_zde size :
  ¬ raises ZeroDivisionError (Full.create_gradient_background size).
Proof.
  unfold Full.create_gradient_background.
  apply raises_bind; [apply new_no_zde|]. intros img _.
  apply for_each_no_raise. intros y im _.
  apply for_each_no_raise. intros x im' _.
  apply raises_bind; [|intros; apply putpixel_no_zde].
  unfold Full.gradient_color.
  repeat (apply raises_bind;
    [first [apply fraction_no_zde|apply interpolate_no_zde]|intros ? _]).
  apply raises_Ok.
Qed.

Lemma fallback_gradient_no_zde size :
  ¬ raises ZeroDivisionError (Fallback.create_gradient_background size).
Proof.
  unfold Fallback.create_gradient_background.
  apply raises_bind; [apply new_no_zde|]. intros img _.
  apply for_each_no_raise. intros y im _.
  apply raises_bind;
    [|intros; apply for_each_no_raise; intros; apply putpixel_no_zde].
  unfold Fallback.row_color.
  apply raises_bind; [apply fraction_no_zde|]. intros ty _.
  apply raises_bind.
  { unfold le. destruct ty; (apply raises_bind; [apply to_float_no_zde|]);
      intros ? _; (apply raises_bind; [apply to_float_no_zde|]);
      intros ? _; apply raises_Ok. }
  intros [] _; [|apply raises_Ok].
  apply raises_bind.
  { unfold truediv. destruct ty; (apply raises_bind; [apply to_float_no_zde|]);
      intros ? _; cbn [to_float]; rewrite bind_Ok; apply raises_Ok. }
  intros t _.
  repeat (apply raises_bind; [apply interpolate_no_zde|intros ? _]).
  apply raises_Ok.
Qed.

End ExnFacts.

(* ===================================================================== *)
(** * The inner glow                                                      *)
(* ===================================================================== *)

Module GlowFacts.
Import Py PIL Expr PyFacts PILFacts ExnFacts.

Lemma pow2_bound K a :
  nbound K a → 0 ≤ K ≤ 480 → ∃ c, pow2 a = Ok c ∧ nbound (K + K + 1) c.
Proof.
  intros Ha HK. destruct a as [z|f]; simpl in Ha.
  - exists (Int (z * z)). split; [done|]. simpl. rewrite Z.abs_mul.
    apply Z.lt_le_trans with (2 ^ K * 2 ^ K); [nia|].
    rewrite <- Z.pow_add_r by lia. apply Z.pow_le_mono_r; lia.
  - pose proof (fmul_bound K K f f Ha Ha ltac:(lia)) as Hb.
    unfold pow2. destruct (fmul f f) eqn:Hf; try done; by eexists.
Qed.

Lemma range_down_lookup start i r :
  range_down start 0 !! i = Some r ↔ r = start - Z.of_nat i ∧ Z.of_nat i < start.
Proof.
  unfold range_down. rewrite list_lookup_fmap, fmap_Some.
  setoid_rewrite lookup_seqZ. split.
  - intros (j & [-> ?] & ->). lia.
  - intros [-> ?]. exists (Z.of_nat i). lia.
Qed.

Lemma elem_of_range_down start r :
  r ∈ range_down start 0 ↔ 1 ≤ r ≤ start.
Proof.
  rewrite list_elem_of_lookup. setoid_rewrite range_down_lookup. split.
  - intros (i & -> & ?). lia.
  - intros Hr. exists (Z.to_nat (start - r)). lia.
Qed.

Lemma range_down_nil start : start ≤ 0 → range_down start 0 = [].
Proof. intros. unfold range_down. by rewrite seqZ_nil by lia. Qed.

Section Glow.
Context `{Kernels}.

Lemma ellipse_spec im bbox fill :
  wf im →
  wf (ellipse im bbox fill) ∧ same_shape (ellipse im bbox fill) im ∧
  ∀ x y, px (ellipse im bbox fill) x y =
    if inside im x y
    then if ellipse_covers bbox x y then ink (im_mode im) fill else px im x y
    else transparent.
Proof.
  intros Hwf. split; [by apply wf_remap|]. split; [done|].
  intros x y. unfold ellipse. by rewrite px_remap.
Qed.

(** One turn of the loop, when its alpha is known. *)
Lemma glow_step_alpha center max_radius color intensity radius glow a :
  Full.glow_alpha intensity radius max_radius = Ok a →
  Full.glow_step center max_radius color intensity radius glow =
    Ok (if a >? 0
        then ellipse glow (center - radius, center - radius,
                           center + radius, center + radius)
               (C4 color.1.1 color.1.2 color.2 a)
        else glow).
Proof.
  intros Ha. unfold Full.glow_step. rewrite Ha, bind_Ok.
  destruct color as [[r g] b]. by destruct (a >? 0).
Qed.

Lemma glow_step_inv center max_radius color intensity radius glow glow' :
  Full.glow_step center max_radius color intensity radius glow = Ok glow' →
  ∃ a, Full.glow_alpha intensity radius max_radius = Ok a.
Proof.
  unfold Full.glow_step.
  destruct (Full.glow_alpha intensity radius max_radius) as [a|e]; [eauto|done].
Qed.

Lemma glow_draws_cons intensity max_radius r rs :
  Full.glow_draws intensity max_radius (r :: rs) =
    match Full.glow_draw intensity max_radius r with
    | Some d => d :: Full.glow_draws intensity max_radius rs
    | None => Full.glow_draws intensity max_radius rs
    end.
Proof. done. Qed.

(** The radius loop: every pixel ends with the ink of the last circle drawn
    over it, or keeps its value when no circle covers it. *)
Lemma glow_loop center max_radius color intensity radii :
  ∀ img0 img, wf img0 →
  for_each radii (Full.glow_step center max_radius color intensity) img0
    = Ok img →
  wf img ∧ same_shape img img0 ∧
  (∀ r, r ∈ radii → ∃ a, Full.glow_alpha intensity r max_radius = Ok a) ∧
  ∀ x y, inside img0 x y = true →
    px img x y =
      match Full.last_cover center
              (Full.glow_draws intensity max_radius radii) x y with
      | Some (r, a) => ink (im_mode img0) (C4 color.1.1 color.1.2 color.2 a)
      | None => px img0 x y
      end.
Proof.
  induction radii as [|r rs IH]; intros img0 img Hwf Hrun.
  - simpl in Hrun. simplify_eq. split; [done|]. split; [done|].
    split; [by intros r ?%elem_of_nil|done].
  - cbn [for_each] in Hrun.
    destruct (Full.glow_step center max_radius color intensity r img0)
      as [img1|e] eqn:Hstep; [|done].
    rewrite bind_Ok in Hrun.
    destruct (glow_step_inv _ _ _ _ _ _ _ Hstep) as (a & Ha).
    rewrite (glow_step_alpha _ _ _ _ _ _ a Ha) in Hstep. simplify_eq.
    set (img1 := if a >? 0 then _ else img0) in *.
    pose proof (ellipse_spec img0 (Full.glow_bbox center r)
      (C4 color.1.1 color.1.2 color.2 a) Hwf) as (Hwe & Hse & Hpe).
    assert (Hwf1 : wf img1) by (unfold img1; by destruct (a >? 0)).
    assert (Hs1 : same_shape img1 img0) by (unfold img1; by destruct (a >? 0)).
    destruct (IH img1 img Hwf1 Hrun) as (Hw & Hs & Hall & Hpx).
    split; [done|]. split; [by eapply same_shape_trans|]. split.
    { intros r' [->|?]%elem_of_cons; [eauto|by apply Hall]. }
    intros x y Hin.
    assert (Hin1 : inside img1 x y = true).
    { destruct Hs1 as (_ & Hw1 & Hh1). unfold inside in *. by rewrite Hw1, Hh1. }
    rewrite (Hpx x y Hin1). destruct Hs1 as (-> & _ & _).
    rewrite glow_draws_cons. unfold Full.glow_draw. rewrite Ha. unfold Full.last_cover.
    fold img1.
    destruct (a >? 0) eqn:Hpos; [|done].
    rewrite filter_cons. cbn [fst].
    destruct (decide (ellipse_covers (Full.glow_bbox center r) x y = true)) as [Hc|Hc].
    + rewrite last_cons.
      destruct (last (filter _ _)) as [[r' a']|]; [done|].
      unfold img1. unfold Full.glow_bbox in *. by rewrite Hpe, Hin, Hc.
    + destruct (last (filter _ _)) as [[r' a']|]; [done|].
      unfold img1. unfold Full.glow_bbox in *. rewrite Hpe, Hin.
      by destruct (ellipse_covers _ x y).
Qed.

Lemma glow_loop_ok center max_radius color intensity radii :
  (∀ r, r ∈ radii → ∃ a, Full.glow_alpha intensity r max_radius = Ok a) →
  ∀ img0, ∃ img,
    for_each radii (Full.glow_step center max_radius color intensity) img0
      = Ok img.
Proof.
  induction radii as [|r rs IH]; intros Hall img0; [by eexists|].
  destruct (Hall r) as (a & Ha); [by left|].
  cbn [for_each]. rewrite (glow_step_alpha _ _ _ _ _ _ a Ha), bind_Ok.
  apply IH. intros r' Hr'. apply Hall. by right.
Qed.


Lemma glow_alpha_ok KI intensity r max_radius :
  nbound KI intensity → 0 ≤ KI ≤ 400 → 1 ≤ r ≤ max_radius →
  ∃ a, Full.glow_alpha intensity r max_radius = Ok a.
Proof.
  intros Hi HK Hr. unfold Full.glow_alpha.
  assert (H255 : nbound 8 (Int 255)) by done.
  destruct (mul_bound 8 KI _ _ H255 Hi) as (k & -> & Hk); [lia..|].
  rewrite bind_Ok.
  destruct (truediv_int_bound r max_radius) as (q & -> & Hq); [lia..|].
  rewrite bind_Ok.
  assert (H1 : nbound 2 (Int 1)) by done.
  destruct (addsub_bound 2 (Int 1) (Float q) H1 Hq) as [_ (d & -> & Hd)]; [lia|].
  rewrite bind_Ok.
  destruct (pow2_bound _ d Hd) as (sq & -> & Hsq); [lia|].
  rewrite bind_Ok.
  destruct (mul_bound _ _ k sq Hk Hsq) as (v & -> & Hv); [lia..|].
  rewrite bind_Ok.
  destruct (int_of_nbound _ v Hv) as (a & -> & _); [lia|]. eauto.
Qed.


(** The outermost circle has alpha 0. *)
Lemma glow_alpha_outer KI intensity max_radius :
  nbound KI intensity → 0 ≤ KI ≤ 400 → 1 ≤ max_radius →
  Full.glow_alpha intensity max_radius max_radius = Ok 0.
Proof.
  intros Hi HK Hr. unfold Full.glow_alpha.
  assert (H255 : nbound 8 (Int 255)) by done.
  destruct (mul_bound 8 KI _ _ H255 Hi) as (k & -> & Hk); [lia..|].
  rewrite bind_Ok. cbn [truediv]. rewrite int_truediv_self by lia.
  cbn [fmap result_fmap]. rewrite bind_Ok.
  assert (Hd : sub (Int 1) (Float f1_0) = Ok (Float (S754_zero false)))
    by by vm_compute.
  rewrite Hd, bind_Ok.
  assert (Hsq : pow2 (Float (S754_zero false)) = Ok (Float (S754_zero false)))
    by by vm_compute.
  rewrite Hsq, bind_Ok.
  destruct (to_float_bound _ k Hk ltac:(lia)) as (fk & Hfk & Hbk).
  assert (Hv : ∃ s, mul k (Float (S754_zero false)) = Ok (Float (S754_zero s))).
  { unfold mul, arith. destruct k as [z|f]; cbn [to_float] in *;
      rewrite Hfk, !bind_Ok; destruct fk; try done; by eexists. }
  destruct Hv as (s & ->). done.
Qed.

End Glow.

Section InnerGlow.
Context `{Kernels}.

Lemma new_inv m w h c im :
  new m w h c = Ok im →
  0 ≤ w ∧ 0 ≤ h ∧ im = mkImage m w h (replicate (Z.to_nat (w * h)) (ink m c)).
Proof.
  unfold new. destruct (Z.ltb_spec w 0), (Z.ltb_spec h 0); simpl; try done.
  intros [= <-]. done.
Qed.

Lemma inner_glow_spec size color intensity img :
  Full.create_inner_glow size color intensity = Ok img →
  0 ≤ size ∧ wf img ∧
  im_mode img = RGBA ∧ im_width img = size ∧ im_height img = size ∧
  (∀ r, 1 ≤ r ≤ size `div` 2 →
     ∃ a, Full.glow_alpha intensity r (size `div` 2) = Ok a) ∧
  ∀ x y, 0 ≤ x < size → 0 ≤ y < size →
    px img x y =
      match Full.last_cover (size `div` 2)
              (Full.glow_draws intensity (size `div` 2)
                 (range_down (size `div` 2) 0)) x y with
      | Some (r, a) => ink RGBA (C4 color.1.1 color.1.2 color.2 a)
      | None => transparent
      end.
Proof.
  unfold Full.create_inner_glow.
  destruct (new RGBA size size (C4 0 0 0 0)) as [img0|e] eqn:Hnew; [|done].
  rewrite bind_Ok. intros Hrun.
  apply new_inv in Hnew as (Hs & _ & ->).
  set (img0 := mkImage RGBA size size _) in *.
  assert (Hwf0 : wf img0) by by apply wf_replicate.
  destruct (glow_loop _ _ _ _ _ img0 img Hwf0 Hrun)
    as (Hwf & (Hm & Hw & Hh) & Hall & Hpx).
  repeat (split; [done|]). split.
  { intros r Hr. apply Hall. by apply elem_of_range_down. }
  intros x y Hx Hy. rewrite Hpx by (apply inside_spec; done).
  destruct (Full.last_cover _ _ x y) as [[r a]|]; [done|].
  by apply px_replicate.
Qed.

Lemma inner_glow_ok KI size color intensity :
  0 ≤ size → nbound KI intensity → 0 ≤ KI ≤ 400 →
  ∃ img, Full.create_inner_glow size color intensity = Ok img.
Proof.
  intros Hs Hi HK. unfold Full.create_inner_glow.
  rewrite new_ok, bind_Ok by done.
  apply glow_loop_ok. intros r Hr%elem_of_range_down.
  by apply (glow_alpha_ok KI).
Qed.


End InnerGlow.

End GlowFacts.

(* ===================================================================== *)
(** * The drop shadow                                                     *)
(* ===================================================================== *)

Module ShadowFacts.
Import Py PIL Expr PyFacts PILFacts.

Lemma raster_ext w h f g :
  (∀ x y, 0 ≤ x < w → 0 ≤ y < h → f x y = g x y) →
  raster w h f = raster w h g.
Proof.
  intros Hfg. unfold raster.
  assert (Hl : ∀ l : list Z, (∀ y, y ∈ l → 0 ≤ y < h) →
    l ≫= (λ y, (λ x, f x y) <$> seqZ 0 w) = l ≫= (λ y, (λ x, g x y) <$> seqZ 0 w)).
  { induction l as [|y l IH]; intros Hy; [done|].
    rewrite !bind_cons, IH by (intros; apply Hy; by right). f_equal.
    apply list_fmap_ext. intros i x Hx%lookup_seqZ.
    apply Hfg; [lia|]. apply Hy. by left. }
  apply Hl. intros y Hy%elem_of_seqZ. lia.
Qed.

Lemma px_lookup im x y :
  wf im → inside im x y = true → im_data im !! offset im x y = Some (px im x y).
Proof.
  intros Hwf Hin. unfold px. rewrite Hin.
  destruct (lookup_lt_is_Some_2 (im_data im) (offset im x y)) as [p Hp];
    [by apply offset_lt|]. by rewrite Hp.
Qed.

Lemma px_fmap_data m im (f : pixel → pixel) x y :
  wf im → inside im x y = true →
  px (mkImage m (im_width im) (im_height im) (f <$> im_data im)) x y
    = f (px im x y).
Proof.
  intros Hwf Hin. unfold px at 1. unfold inside at 1, offset at 1. simpl.
  fold (inside im x y). fold (offset im x y).
  by rewrite Hin, list_lookup_fmap, px_lookup.
Qed.

Lemma wf_fmap_data m im (f : pixel → pixel) :
  wf im → wf (mkImage m (im_width im) (im_height im) (f <$> im_data im)).
Proof. intros (? & ? & ?). repeat split; simpl; try done. by rewrite length_fmap. Qed.

Lemma alpha_band_spec im :
  wf im → im_mode im = RGBA →
  ∃ band, alpha_band im = Ok band ∧ wf band ∧ im_mode band = L ∧
    im_width band = im_width im ∧ im_height band = im_height im ∧
    ∀ x y, inside im x y = true → mask_value band x y = alpha_of (px im x y).
Proof.
  intros Hwf Hm. unfold alpha_band. rewrite Hm. eexists. split; [done|].
  split; [by apply wf_fmap_data|]. repeat (split; [done|]).
  intros x y Hin. unfold mask_value. cbn [im_mode].
  by rewrite px_fmap_data.
Qed.

Lemma putalpha_spec im band :
  im_mode band = L → im_width band = im_width im →
  im_height band = im_height im → 0 ≤ im_width im → 0 ≤ im_height im →
  ∃ out, putalpha im band = Ok out ∧ wf out ∧ im_mode out = RGBA ∧
    im_width out = im_width im ∧ im_height out = im_height im ∧
    ∀ x y, inside im x y = true →
      px out x y = set_alpha (px im x y) (mask_value band x y).
Proof.
  intros Hm Hw Hh H0w H0h. unfold putalpha.
  rewrite Hm. rewrite bool_decide_eq_true_2 by done. cbn [negb].
  unfold same_size. rewrite Hw, Hh, !Z.eqb_refl. cbn [andb].
  eexists. split; [done|]. split; [by apply wf_raster|].
  repeat (split; [done|]).
  intros x y [? ?]%inside_spec. by rewrite px_raster.
Qed.

Lemma crop_spec im left top right bottom :
  left ≤ right → top ≤ bottom →
  ∃ out, crop im left top right bottom = Ok out ∧ wf out ∧
    im_mode out = im_mode im ∧ im_width out = right - left ∧
    im_height out = bottom - top ∧
    ∀ x y, 0 ≤ x < right - left → 0 ≤ y < bottom - top →
      px out x y = px im (x + left) (y + top).
Proof.
  intros Hl Ht. unfold crop.
  destruct (Z.ltb_spec right left); [lia|].
  destruct (Z.ltb_spec bottom top); [lia|].
  eexists. split; [done|]. split; [apply wf_raster; lia|].
  repeat (split; [done|]). intros x y Hx Hy. by rewrite px_raster.
Qed.

Section Shadow.
Context `{Kernels}.

Lemma paste_mask_spec dst src ox oy m :
  wf dst → im_width m = im_width src → im_height m = im_height src →
  ∃ out, paste dst src ox oy (Some m) = Ok out ∧ wf out ∧ same_shape out dst ∧
    ∀ x y, inside dst x y = true →
      px out x y =
        if inside src (x - ox) (y - oy)
        then blend_px (im_mode dst) (px dst x y)
               (px (convert src (im_mode dst)) (x - ox) (y - oy))
               (mask_value m (x - ox) (y - oy))
        else px dst x y.
Proof.
  intros Hwf Hw Hh. unfold paste, same_size.
  rewrite Hw, Hh, !Z.eqb_refl. cbn [andb].
  eexists. split; [done|]. split; [by apply wf_remap|]. split; [done|].
  intros x y Hin. by rewrite px_remap, Hin.
Qed.

Lemma paste_plain_spec dst src ox oy :
  wf dst →
  ∃ out, paste dst src ox oy None = Ok out ∧ wf out ∧ same_shape out dst.
Proof.
  intros Hwf. eexists. split; [done|]. split; [by apply wf_remap|done].
Qed.

Lemma gaussian_blur_spec im radius :
  wf im → wf (gaussian_blur im radius) ∧ same_shape (gaussian_blur im radius) im.
Proof. intros Hwf. split; [by apply wf_remap|done]. Qed.

End Shadow.

Section Shadow2.
Context `{Kernels}.

(** The silhouette layer: black, with the alpha of the icon, whatever
    alpha the layer was created with. *)
Lemma silhouette_spec size a band :
  0 ≤ size → im_mode band = L → im_width band = size → im_height band = size →
  ∃ layer,
    (new RGBA size size (C4 0 0 0 a) ≫= λ l, putalpha l band) = Ok layer ∧
    wf layer ∧ im_mode layer = RGBA ∧
    im_width layer = size ∧ im_height layer = size ∧
    im_data layer = raster size size (λ x y, (0, 0, 0, mask_value band x y)).
Proof.
  intros Hs Hm Hw Hh. rewrite new_ok, bind_Ok by done.
  unfold putalpha. rewrite Hm, bool_decide_eq_true_2 by done. cbn [negb].
  unfold same_size. cbn [im_width im_height]. rewrite Hw, Hh, !Z.eqb_refl.
  cbn [andb]. eexists. split; [done|]. split; [by apply wf_raster|].
  repeat (split; [done|]). cbn [im_data].
  apply raster_ext. intros x y Hx Hy. by rewrite px_replicate.
Qed.

Lemma add_drop_shadow_steps icon size offset blur_radius shadow_opacity a :
  wf icon → im_mode icon = RGBA → im_width icon = size → im_height icon = size →
  0 ≤ blur_radius →
  mul (Int 255) shadow_opacity ≫= int_of = Ok a →
  ∃ canvas band layer stamped pasted result,
    new RGBA (size + 4 * blur_radius) (size + 4 * blur_radius) (C4 0 0 0 0)
      = Ok canvas ∧
    alpha_band icon = Ok band ∧
    (new RGBA size size (C4 0 0 0 a) ≫= λ l, putalpha l band) = Ok layer ∧
    im_data layer =
      raster size size (λ x y, (0, 0, 0, mask_value band x y)) ∧
    (∀ x y, 0 ≤ x < size → 0 ≤ y < size →
       px layer x y = (0, 0, 0, alpha_of (px icon x y))) ∧
    paste canvas layer (2 * blur_radius + offset.1)
      (2 * blur_radius + offset.2) (Some layer) = Ok stamped ∧
    paste (gaussian_blur stamped blur_radius) icon
      (2 * blur_radius) (2 * blur_radius) (Some icon) = Ok pasted ∧
    crop pasted (2 * blur_radius) (2 * blur_radius)
      (2 * blur_radius + size) (2 * blur_radius + size) = Ok result ∧
    Full.add_drop_shadow icon size offset blur_radius shadow_opacity
      = Ok result ∧
    wf result ∧ im_mode result = RGBA ∧
    im_width result = size ∧ im_height result = size.
Proof.
  intros Hwf Hm Hw Hh Hb Ha.
  assert (Hs : 0 ≤ size) by (destruct Hwf as (? & _); lia).
  unfold Full.add_drop_shadow.
  replace (blur_radius * 2) with (2 * blur_radius) by lia.
  replace (size + 2 * blur_radius * 2) with (size + 4 * blur_radius) by lia.
  rewrite (new_ok RGBA (size + 4 * blur_radius)) by lia.
  set (canvas := mkImage RGBA (size + 4 * blur_radius) _ _).
  assert (Hwc : wf canvas) by (apply wf_replicate; lia).
  destruct (alpha_band_spec icon Hwf Hm)
    as (band & Hband & Hwb & Hmb & Hbw & Hbh & Hbpx).
  destruct (silhouette_spec size a band Hs Hmb) as
    (layer & Hlayer & Hwl & Hml & Hlw & Hlh & Hld); [lia..|].
  destruct (paste_mask_spec canvas layer (2 * blur_radius + offset.1)
    (2 * blur_radius + offset.2) layer Hwc) as
    (stamped & Hst & Hwst & Hsst & _); [done..|].
  destruct (gaussian_blur_spec stamped blur_radius Hwst) as [Hwg Hsg].
  destruct (paste_mask_spec (gaussian_blur stamped blur_radius) icon
    (2 * blur_radius) (2 * blur_radius) icon Hwg) as
    (pasted & Hpa & Hwpa & Hspa & _); [done..|].
  destruct (crop_spec pasted (2 * blur_radius) (2 * blur_radius)
    (2 * blur_radius + size) (2 * blur_radius + size)) as
    (result & Hres & Hwr & Hmr & Hrw & Hrh & _); [lia..|].
  exists canvas, band, layer, stamped, pasted, result.
  split; [done|]. split; [done|]. split; [done|]. split; [done|]. split.
  { intros x y Hx Hy.
    assert (Hl : layer = mkImage RGBA size size (im_data layer))
      by (destruct layer; simpl in *; congruence).
    rewrite Hl, Hld, px_raster by done. f_equal. apply Hbpx.
    apply inside_spec. lia. }
  split; [done|]. split; [done|]. split; [done|]. split.
  { rewrite !bind_Ok, Hband, bind_Ok. rewrite Ha, bind_Ok.
    rewrite (new_ok RGBA size size) in Hlayer |- * by lia.
    rewrite bind_Ok in Hlayer |- *. rewrite Hlayer, bind_Ok.
    cbn [fst snd]. rewrite Hst, bind_Ok. rewrite Hpa, bind_Ok. done. }
  split; [done|]. split.
  { rewrite Hmr. destruct Hspa as (-> & _). by destruct Hsg as (-> & _), Hsst as (-> & _). }
  split; lia.
Qed.

End Shadow2.

Section Shadow3.
Context `{Kernels}.



End Shadow3.

End ShadowFacts.

(* ===================================================================== *)
(** * The rasters the two [create_icon] save                              *)
(* ===================================================================== *)

Module RasterFacts.
Import Py PIL Expr PyFacts PILFacts GradientFacts GlowFacts ShadowFacts.

Lemma bind_Ok_inv {A B} (r : result A) (f : A → result B) b :
  r ≫= f = Ok b → ∃ a, r = Ok a ∧ f a = Ok b.
Proof. destruct r as [a|e]; [eauto|done]. Qed.

Lemma fmap_Ok_inv {A B} (r : result A) (f : A → B) b :
  f <$> r = Ok b → ∃ a, r = Ok a ∧ b = f a.
Proof. destruct r as [a|e]; [|done]. intros [= <-]. eauto. Qed.

Section FullRaster.
Context `{Kernels}.





Lemma resize_ok im w h :
  1 ≤ w → 1 ≤ h →
  ∃ out, resize im w h = Ok out ∧ wf out ∧ im_mode out = im_mode im ∧
    im_width out = w ∧ im_height out = h.
Proof.
  intros Hw Hh. unfold resize.
  destruct (Z.ltb_spec w 1); [lia|]. destruct (Z.ltb_spec h 1); [lia|].
  eexists. split; [done|]. split; [apply wf_raster; lia|done].
Qed.

Lemma alpha_composite_ok im1 im2 :
  wf im1 → im_mode im1 = RGBA → im_mode im2 = RGBA →
  im_width im2 = im_width im1 → im_height im2 = im_height im1 →
  ∃ out, alpha_composite im1 im2 = Ok out ∧ wf out ∧ same_shape out im1.
Proof.
  intros Hwf Hm1 Hm2 Hw Hh. unfold alpha_composite, same_size.
  rewrite Hm1, Hm2, Hw, Hh, !Z.eqb_refl. cbn [andb].
  eexists. split; [done|]. split; [by apply wf_remap|done].
Qed.

Lemma opacity_007 : mul (Int 255) (Float f0_07) ≫= int_of = Ok 17.
Proof. by vm_compute. Qed.

Lemma fbound_f0_15 : nbound 0 (Float f0_15).
Proof. by vm_compute. Qed.

(** The full compositing succeeds whenever the three scaled lengths do and
    the logo keeps at least one pixel. *)
Lemma full_icon_raster_ok logo size scale ls ox b :
  0 ≤ size * scale →
  scaled (size * scale) f0_80 = Ok ls → 1 ≤ ls →
  scaled (size * scale) f0_02 = Ok ox →
  scaled (size * scale) f0_025 = Ok b → 0 ≤ b →
  ∃ img, Full.icon_raster (Ok logo) size scale = Ok img.
Proof.
  intros HA Hls H1 Hox Hb H0. unfold Full.icon_raster.
  destruct (full_gradient_spec (size * scale) HA)
    as (bg & -> & Hwbg & Hmbg & Hwb & Hhb & _).
  rewrite bind_Ok.
  destruct (inner_glow_ok 0 (size * scale) (100, 180, 180) (Float f0_15) HA
    fbound_f0_15) as (glow & Hglow); [lia|].
  rewrite Hglow, bind_Ok.
  apply inner_glow_spec in Hglow as (_ & Hwg & Hmg & Hwgl & Hhgl & _).
  destruct (alpha_composite_ok bg glow Hwbg Hmbg Hmg)
    as (bg2 & -> & Hwbg2 & Hm2 & Hw2 & Hh2); [congruence..|].
  rewrite bind_Ok. cbn [fmap result_fmap]. rewrite bind_Ok, Hls, bind_Ok.
  destruct (resize_ok (convert logo RGBA) ls ls H1 H1)
    as (lr & -> & Hwlr & Hmlr & Hwl & Hhl).
  rewrite bind_Ok, Hox, !bind_Ok, Hb, bind_Ok.
  destruct (add_drop_shadow_steps lr ls (ox, ox) b (Float f0_07) 17 Hwlr)
    as (cv & bd & ly & st & pa & lws & _ & _ & _ & _ & _ & _ & _ & _ & Hlws & Hwlws & _);
    [done..|apply opacity_007|].
  rewrite Hlws, bind_Ok. unfold copy.
  destruct (paste_mask_spec bg2 lws ((size * scale - ls) `div` 2)
    ((size * scale - ls) `div` 2) lws Hwbg2)
    as (final & -> & Hwfin & (Hmf & _ & _) & _); [done..|].
  rewrite bind_Ok, new_ok, bind_Ok by done.
  rewrite Hmf, Hm2, Hmbg, bool_decide_eq_true_2 by done.
  destruct (paste_mask_spec
    (mkImage RGB (size * scale) (size * scale)
       (replicate (Z.to_nat (size * scale * (size * scale))) (ink RGB (C3 0 0 0))))
    final 0 0 final) as (img & -> & _); [by apply wf_replicate|done..|].
  by exists img.
Qed.

Lemma full_catalog_raster_ok logo size scale filename :
  (size, scale, filename) ∈ Full.ICON_SIZES →
  ∃ img, Full.icon_raster (Ok logo) size scale = Ok img.
Proof.
  unfold Full.ICON_SIZES. rewrite !elem_of_cons, elem_of_nil.
  intros Hin.
  repeat (destruct Hin as [[= -> -> ->]|Hin]; [
    eapply full_icon_raster_ok;
      [lia | vm_compute; reflexivity | lia | vm_compute; reflexivity
      | vm_compute; reflexivity | lia] |]).
  done.
Qed.

End FullRaster.

Lemma wf_convert im m : wf im → wf (convert im m).
Proof.
  intros Hwf. destruct m; try by apply (wf_fmap_data _ im).
  by destruct Hwf as (? & ? & ?).
Qed.


Section FallbackRaster.
Context `{Kernels}.



Lemma aspect_square w :
  1 ≤ w → truediv (Int w) (Int w) = Ok (Float f1_0).
Proof. intros Hw. cbn [truediv]. by rewrite int_truediv_self by lia. Qed.

Lemma gt_one_one : gt (Float f1_0) (Int 1) = Ok false.
Proof. by vm_compute. Qed.

(** With a square logo the fallback compositing succeeds whenever the scaled
    length does and the logo keeps at least one pixel. *)
Lemma fallback_icon_raster_ok logo size scale ls nw :
  0 ≤ size * scale → 1 ≤ im_width logo → im_height logo = im_width logo →
  scaled (size * scale) f0_70 = Ok ls → 1 ≤ ls →
  mul (Int ls) (Float f1_0) ≫= int_of = Ok nw → 1 ≤ nw →
  ∃ img, Fallback.icon_raster (Ok logo) size scale = Ok img.
Proof.
  intros HA Hw Hh Hls H1 Hnw H1'. unfold Fallback.icon_raster.
  destruct (fallback_gradient_spec (size * scale) HA)
    as (bg & -> & Hwbg & Hmbg & Hwb & Hhb & _).
  rewrite bind_Ok. cbn [fmap result_fmap]. rewrite bind_Ok, Hls, bind_Ok.
  replace (im_width (convert logo RGBA)) with (im_width logo) by done.
  replace (im_height (convert logo RGBA)) with (im_width logo) by done.
  rewrite aspect_square, bind_Ok, gt_one_one, bind_Ok by done.
  rewrite Hnw, !bind_Ok.
  destruct (resize_ok (convert logo RGBA) nw ls H1' H1)
    as (lr & -> & Hwlr & Hmlr & Hwl & Hhl).
  rewrite bind_Ok.
  destruct (paste_mask_spec (convert bg RGBA) lr
    ((size * scale - nw) `div` 2) ((size * scale - ls) `div` 2) lr)
    as (bgr & -> & _); [by apply wf_convert|done..|].
  rewrite bind_Ok, new_ok, bind_Ok by done. by eexists.
Qed.

Lemma fallback_catalog_raster_ok logo size scale filename :
  1 ≤ im_width logo → im_height logo = im_width logo →
  (size, scale, filename) ∈ Fallback.ICON_SIZES →
  ∃ img, Fallback.icon_raster (Ok logo) size scale = Ok img.
Proof.
  intros Hw Hh. unfold Fallback.ICON_SIZES. rewrite !elem_of_cons, elem_of_nil.
  intros Hin.
  repeat (destruct Hin as [[= -> -> ->]|Hin]; [
    eapply (fallback_icon_raster_ok logo);
      [lia | done | done | vm_compute; reflexivity | lia
      | vm_compute; reflexivity | lia] |]).
  done.
Qed.

End FallbackRaster.

End RasterFacts.

(* ===================================================================== *)
(** * Running [create_icon]                                               *)
(* ===================================================================== *)

Module IconFacts.
Import Py PIL OS Expr PyFacts PILFacts RasterFacts.

Lemma io_bind_unfold {A B} (m : io A) (f : A → io B) w :
  (m ≫= f) w =
    match m w with
    | (Ok a, w') => f a w'
    | (Raise e, w') => (Raise e, w')
    end.
Proof. done. Qed.

Lemma io_lift_bind {A B} (r : result A) (f : A → io B) w :
  (lift r ≫= f) w =
    match r with Ok a => f a w | Raise e => (Raise e, w) end.
Proof. rewrite io_bind_unfold. unfold lift. by destruct r. Qed.

Lemma io_bind_assoc {A B C} (m : io A) (f : A → io B) (g : B → io C) w :
  ((m ≫= f) ≫= g) w = (m ≫= λ a, f a ≫= g) w.
Proof. rewrite !io_bind_unfold. by destruct (m w) as [[a|e] w']. Qed.

Lemma io_ret_bind {A B} (a : A) (f : A → io B) w : (mret a ≫= f) w = f a w.
Proof. done. Qed.

Lemma print_bind {B} s (f : () → io B) w :
  (print s ≫= f) w = f () (mkWorld (fs w) (stdout w ++ [s])).
Proof. done. Qed.

Lemma image_open_eq p w : image_open p w = ((image_open p w).1, w).
Proof.
  unfold image_open, on_fs. destruct (read_at p (fs w)) as [c|e]; [|done].
  rewrite bind_Ok. destruct c; try done. by destruct w.
Qed.

Lemma image_open_fs p w1 w2 :
  fs w1 = fs w2 → (image_open p w1).1 = (image_open p w2).1.
Proof.
  intros Hfs. unfold image_open, on_fs. rewrite Hfs.
  destruct (read_at p (fs w2)) as [c|e]; [|done].
  rewrite bind_Ok. by destruct c.
Qed.

Section IconEquations.
Context `{Kernels}.

(** [create_icon] is its raster, saved and reported. *)
Lemma full_create_icon_eq shadow_path logo_path output_path size scale w :
  Full.create_icon shadow_path logo_path output_path size scale w =
    match Full.icon_raster (image_open logo_path w).1 size scale with
    | Ok img =>
        (image_save img output_path;;
         print (Full.created_message output_path (size * scale))) w
    | Raise e => (Raise e, w)
    end.
Proof.
  unfold Full.create_icon, Full.icon_raster.
  rewrite io_lift_bind.
  destruct (Full.create_gradient_background _) as [bg|e]; [|done].
  rewrite bind_Ok, io_lift_bind.
  destruct (Full.create_inner_glow _ _ _) as [glow|e]; [|done].
  rewrite bind_Ok, io_lift_bind.
  destruct (alpha_composite bg glow) as [bg2|e]; [|done].
  rewrite bind_Ok, io_bind_unfold.
  unfold fmap at 1, io_fmap. rewrite (image_open_eq logo_path w).
  destruct (image_open logo_path w).1 as [logo|e]; [|done].
  cbn [fmap result_fmap fst]. rewrite bind_Ok, io_lift_bind.
  destruct (scaled _ f0_80) as [ls|e]; [|done].
  rewrite bind_Ok, io_lift_bind.
  destruct (resize _ ls ls) as [lr|e]; [|done].
  rewrite bind_Ok, io_lift_bind.
  destruct (scaled _ f0_02) as [ox|e]; [|done].
  rewrite !bind_Ok, !io_lift_bind.
  destruct (scaled _ f0_025) as [b|e]; [|done].
  rewrite bind_Ok, io_lift_bind.
  destruct (Full.add_drop_shadow _ _ _ _ _) as [lws|e]; [|done].
  rewrite bind_Ok, io_lift_bind.
  destruct (paste (copy bg2) lws _ _ _) as [final|e]; [|done].
  rewrite bind_Ok, io_lift_bind.
  destruct (new RGB _ _ _) as [rgb|e]; [|done].
  rewrite bind_Ok, io_lift_bind.
  destruct (paste rgb final 0 0 _) as [img|e]; done.
Qed.


End IconEquations.

Lemma write_at_inv (p : path) (c : content) (t t' : gmap path node) :
  write_at p c t = Ok t' → t' = <[p := File c]> t.
Proof.
  unfold write_at. destruct p as [|s p]; [done|].
  destruct (node_at t (dirname (s :: p))) as [[?|]|]; try done.
  destruct (t !! (s :: p)) as [[?|]|]; try done; by intros [= <-].
Qed.

Lemma write_file_eq (p : path) (c : content) (w : world) :
  write_file p c w =
    match write_at p c (fs w) with
    | Ok t' => (Ok (), mkWorld t' (stdout w))
    | Raise e => (Raise e, w)
    end.
Proof.
  unfold write_file, on_fs. by destruct (write_at p c (fs w)).
Qed.

(** Saving and reporting: one file written, one line printed, or nothing. *)
Lemma save_and_print_eq (img : Image) (p : path) (msg : string) (w : world) :
  (image_save img p;; print msg) w =
    match write_at p (FImage img) (fs w) with
    | Ok _ => (Ok (), mkWorld (<[p := File (FImage img)]> (fs w))
                        (stdout w ++ [msg]))
    | Raise e => (Raise e, w)
    end.
Proof.
  rewrite io_bind_unfold. unfold image_save. rewrite write_file_eq.
  destruct (write_at p (FImage img) (fs w)) as [t'|e] eqn:Hw; [|done].
  apply write_at_inv in Hw as ->. done.
Qed.

Section IconOutcomes.
Context `{Kernels}.

Lemma full_create_icon_outcome shadow_path logo_path output_path size scale w :
  match Full.create_icon shadow_path logo_path output_path size scale w with
  | (Ok _, w') =>
      ∃ img, Full.icon_raster (image_open logo_path w).1 size scale = Ok img ∧
        fs w' = <[output_path := File (FImage img)]> (fs w) ∧
        stdout w' = stdout w ++ [Full.created_message output_path (size * scale)]
  | (Raise _, w') => w' = w
  end.
Proof.
  rewrite full_create_icon_eq.
  destruct (Full.icon_raster _ size scale) as [img|e]; [|done].
  rewrite save_and_print_eq.
  destruct (write_at _ _ _); [|done]. by exists img.
Qed.


End IconOutcomes.

End IconFacts.

(* ===================================================================== *)
(** * Files and output: what the actions touch                           *)
(* ===================================================================== *)

Module OSFacts.
Import Py PIL OS Expr PyFacts PILFacts RasterFacts IconFacts.


Lemma frames_lift {A} Q (r : result A) : frames Q (lift r).
Proof. by intros w p _. Qed.






Lemma frames_on_fs {A} (Q : path → Prop)
    (f : gmap path node → result (A * gmap path node)) :
  (∀ t a t', f t = Ok (a, t') → ∀ p, ¬ Q p → t' !! p = t !! p) →
  frames Q (on_fs f).
Proof.
  intros Hf w p Hp. unfold on_fs.
  destruct (f (fs w)) as [[a t']|e] eqn:E; [|done]. by apply (Hf _ _ _ E).
Qed.



Lemma write_at_frame p c t t' q :
  write_at p c t = Ok t' → q ≠ p → t' !! q = t !! q.
Proof.
  intros Hw Hq. apply write_at_inv in Hw as ->. by apply lookup_insert_ne.
Qed.

Lemma frames_write_file (Q : path → Prop) p c : Q p → frames Q (write_file p c).
Proof.
  intros HQ. apply frames_on_fs. intros t [] t' Hm q Hq.
  apply bind_Ok_inv in Hm as (t1 & Hm & [= <-]).
  eapply write_at_frame; [done|]. by intros ->.
Qed.

Lemma frames_image_open Q p : frames Q (image_open p).
Proof.
  apply frames_on_fs. intros t a t' Hm q _.
  apply bind_Ok_inv in Hm as (c & _ & Hm). destruct c; by simplify_eq.
Qed.




Lemma frames_weaken {A} (Q Q' : path → Prop) (m : io A) :
  (∀ p, Q p → Q' p) → frames Q m → frames Q' m.
Proof. intros HQ Hm w p Hp. apply Hm. intros Hq. by apply Hp, HQ. Qed.

(** ** Printing *)

Lemma quiet_ret {A} (a : A) : quiet (mret a : io A).
Proof. by intros w. Qed.

Lemma quiet_lift {A} (r : result A) : quiet (lift r).
Proof. by intros w. Qed.

Lemma quiet_path_exists p : quiet (path_exists p).
Proof. by intros w. Qed.

Lemma quiet_bind {A B} (m : io A) (f : A → io B) :
  quiet m → (∀ a, quiet (f a)) → quiet (m ≫= f).
Proof.
  intros Hm Hf w. rewrite io_bind_unfold. specialize (Hm w).
  destruct (m w) as [[a|e] w']; [|done]. by rewrite Hf.
Qed.

Lemma quiet_for_each_io {A} (xs : list A) (body : A → io ()) :
  (∀ x, quiet (body x)) → quiet (for_each_io xs body).
Proof.
  intros Hb. induction xs as [|x xs IH]; [apply quiet_ret|].
  apply quiet_bind; [apply Hb|by intros _].
Qed.

Lemma quiet_on_fs {A} (f : gmap path node → result (A * gmap path node)) :
  quiet (on_fs f).
Proof. intros w. unfold on_fs. by destruct (f (fs w)) as [[a t']|e]. Qed.

Lemma quiet_run_iconutil `{Platform} src dst : quiet (run_iconutil src dst).
Proof.
  intros w. unfold run_iconutil.
  by destruct (iconutil (fs w) src dst) as [e|rc err [c|]].
Qed.

Section Icns.
Context `{Platform}.



End Icns.

End OSFacts.

(* ===================================================================== *)
(** * The two [main] functions                                            *)
(* ===================================================================== *)

Module MainFacts.
Import Py PIL OS Expr PyFacts PILFacts RasterFacts IconFacts OSFacts.

Lemma node_at_snoc t (p : path) c : node_at t (p ++ [c]) = t !! (p ++ [c]).
Proof. by destruct p. Qed.

Lemma node_at_app_cons t (p : path) c q : node_at t (p ++ c :: q) = t !! (p ++ c :: q).
Proof. by destruct p. Qed.

Lemma node_at_full_shadow t sd :
  node_at t (Full.shadow_path_of sd) = t !! Full.shadow_path_of sd.
Proof. apply node_at_snoc. Qed.

Lemma node_at_full_logo t sd :
  node_at t (Full.logo_path_of sd) = t !! Full.logo_path_of sd.
Proof. apply node_at_snoc. Qed.

Lemma node_at_fallback_logo t sd :
  node_at t (Fallback.logo_path_of sd) = t !! Fallback.logo_path_of sd.
Proof. apply node_at_app_cons. Qed.

Lemma returns_zero_ret : returns_zero (mret 0).
Proof. intros w. by left. Qed.

Lemma returns_zero_bind {A} (m : io A) (f : A → io Z) :
  (∀ a, returns_zero (f a)) → returns_zero (m ≫= f).
Proof.
  intros Hf w. rewrite io_bind_unfold.
  destruct (m w) as [[a|e] w']; [apply Hf|]. right. by exists e.
Qed.

Ltac solve_returns_zero :=
  repeat (apply returns_zero_bind; intros ?); apply returns_zero_ret.


Section Main.
Context `{Kernels} `{Platform}.

Lemma full_generate_all_zero sp lp od ip :
  returns_zero (Full.generate_all sp lp od ip).
Proof. unfold Full.generate_all, Full.epilogue. solve_returns_zero. Qed.

Lemma fallback_generate_all_zero lp od :
  returns_zero (Fallback.generate_all lp od).
Proof. unfold Fallback.generate_all. solve_returns_zero. Qed.

Lemma full_main_no_logo sd w :
  fs w !! Full.logo_path_of sd = None →
  Full.main sd w =
    (Ok 1, mkWorld (fs w)
       (stdout w ++
        (if bool_decide (is_Some (fs w !! Full.shadow_path_of sd)) then []
         else ["Warning: Shadow layer not found at "
                 +:+ path_str (Full.shadow_path_of sd);
               "Proceeding without shadow layer..."]) ++
        ["Error: Logo layer not found at "
           +:+ path_str (Full.logo_path_of sd)])).
Proof.
  intros Hl. unfold Full.main. cbv zeta. rewrite io_bind_unfold.
  unfold path_exists at 1. rewrite node_at_full_shadow.
  destruct (bool_decide (is_Some (fs w !! Full.shadow_path_of sd))); cbn [negb].
  - rewrite io_ret_bind, io_bind_unfold. unfold path_exists.
    rewrite node_at_full_logo, Hl.
    rewrite bool_decide_eq_false_2 by (by intros [? ?]). cbn [negb].
    rewrite print_bind. by rewrite app_nil_l.
  - rewrite io_bind_assoc, print_bind, print_bind, io_bind_unfold.
    unfold path_exists. cbn [fs stdout].
    rewrite node_at_full_logo, Hl.
    rewrite bool_decide_eq_false_2 by (by intros [? ?]). cbn [negb].
    rewrite print_bind. cbn. by rewrite <- !(assoc_L (++)).
Qed.

Lemma full_main_logo sd w :
  is_Some (fs w !! Full.logo_path_of sd) →
  zero_or_raise (Full.main sd w).1.
Proof.
  intros Hl. unfold Full.main. cbv zeta. rewrite io_bind_unfold.
  unfold path_exists at 1.
  set (k := λ _ : (), _).
  assert (Hk : ∀ w1, fs w1 = fs w → zero_or_raise (k () w1).1).
  { intros w1 Hw1. unfold k. rewrite io_bind_unfold. unfold path_exists.
    rewrite node_at_full_logo, Hw1. rewrite bool_decide_eq_true_2 by done.
    cbn [negb]. apply full_generate_all_zero. }
  destruct (negb _).
  - rewrite io_bind_assoc, print_bind, print_bind. by apply Hk.
  - rewrite io_ret_bind. by apply Hk.
Qed.

Lemma fallback_main_no_logo sd w :
  fs w !! Fallback.logo_path_of sd = None →
  Fallback.main sd w =
    (Ok 1, mkWorld (fs w)
       (stdout w ++ ["Error: Logo not found at "
                       +:+ path_str (Fallback.logo_path_of sd)])).
Proof.
  intros Hl. unfold Fallback.main. cbv zeta. rewrite io_bind_unfold.
  unfold path_exists. rewrite node_at_fallback_logo, Hl.
  rewrite bool_decide_eq_false_2 by (by intros [? ?]). cbn [negb].
  by rewrite print_bind.
Qed.

Lemma fallback_main_logo sd w :
  is_Some (fs w !! Fallback.logo_path_of sd) →
  zero_or_raise (Fallback.main sd w).1.
Proof.
  intros Hl. unfold Fallback.main. cbv zeta. rewrite io_bind_unfold.
  unfold path_exists. rewrite node_at_fallback_logo.
  rewrite bool_decide_eq_true_2 by done.
  cbn [negb]. apply fallback_generate_all_zero.
Qed.



End Main.

End MainFacts.

(* ===================================================================== *)
(** * The claims of the specification                                     *)
(* ===================================================================== *)

Module Claims.
Import Py PIL OS Expr Samples.
Import PyFacts PILFacts GradientFacts ExnFacts GlowFacts ShadowFacts.
Import RasterFacts IconFacts OSFacts MainFacts.

Lemma fraction_truediv i size :
  1 < size → fraction i size = truediv (Int i) (Int (size - 1)).
Proof. intros Hs. unfold fraction. by destruct (Z.gtb_spec size 1); [|lia]. Qed.

(** C2: for every size of at least 2 the gradient of the full generator is
    produced, its four corner pixels are the four configured colours, and
    every pixel is the bilinear interpolation of them: along the top edge
    and along the bottom edge by the x-fraction, then between the two by
    the y-fraction, each channel being cut by [int], which truncates
    toward zero. *)
Theorem C2_full_gradient_bilinear size :
  2 ≤ size →
  ∃ im, Full.create_gradient_background size = Ok im ∧
    im_mode im = RGBA ∧ im_width im = size ∧ im_height im = size ∧
    px im 0 0 = (20, 45, 55, 255) ∧
    px im (size - 1) 0 = (35, 40, 70, 255) ∧
    px im 0 (size - 1) = (25, 50, 65, 255) ∧
    px im (size - 1) (size - 1) = (55, 30, 75, 255) ∧
    (∀ x y, 0 ≤ x < size → 0 ≤ y < size →
       ∃ tx ty top_r top_g top_b bot_r bot_g bot_b r g b,
         truediv (Int x) (Int (size - 1)) = Ok tx ∧
         truediv (Int y) (Int (size - 1)) = Ok ty ∧
         interpolate 20 35 tx = Ok top_r ∧
         interpolate 45 40 tx = Ok top_g ∧
         interpolate 55 70 tx = Ok top_b ∧
         interpolate 25 55 tx = Ok bot_r ∧
         interpolate 50 30 tx = Ok bot_g ∧
         interpolate 65 75 tx = Ok bot_b ∧
         interpolate top_r bot_r ty = Ok r ∧
         interpolate top_g bot_g ty = Ok g ∧
         interpolate top_b bot_b ty = Ok b ∧
         px im x y = (clip8 r, clip8 g, clip8 b, 255)) ∧
    (∀ c0 c1 t v, interpolate c0 c1 t = Ok v →
       ∃ d s, mul (Int (c1 - c0)) t = Ok d ∧ add (Int c0) d = Ok s ∧
              int_of s = Ok v) ∧
    (∀ sg m e, int_of (Float (S754_finite sg m e)) =
       Ok (Z.quot (cond_Zopp sg (Z.pos m * 2 ^ Z.max 0 e))
                  (2 ^ Z.max 0 (- e)))).
Proof.
  intros Hs.
  destruct (full_gradient_spec size) as (im & Him & _ & Hm & Hw & Hh & Hpx);
    [lia|].
  destruct (full_corners size) as (H00 & H10 & H01 & H11); [lia|].
  assert (Hc : ∀ x y c, Full.gradient_color size x y = Ok c →
            0 ≤ x < size → 0 ≤ y < size → px im x y = ink RGBA c).
  { intros x y c Hg Hx Hy. destruct (Hpx x y Hx Hy) as (c' & Hg' & ->).
    congruence. }
  exists im. split; [done|]. do 3 (split; [done|]).
  split; [by rewrite (Hc _ _ _ H00) by lia|].
  split; [by rewrite (Hc _ _ _ H10) by lia|].
  split; [by rewrite (Hc _ _ _ H01) by lia|].
  split; [by rewrite (Hc _ _ _ H11) by lia|].
  split; [|split].
  - intros x y Hx Hy. destruct (Hpx x y Hx Hy) as (c & Hg & ->).
    unfold Full.gradient_color in Hg.
    rewrite !fraction_truediv in Hg by lia.
    apply bind_Ok_inv in Hg as (tx & Htx & Hg).
    apply bind_Ok_inv in Hg as (ty & Hty & Hg).
    apply bind_Ok_inv in Hg as (top_r & Htr & Hg).
    apply bind_Ok_inv in Hg as (top_g & Htg & Hg).
    apply bind_Ok_inv in Hg as (top_b & Htb & Hg).
    apply bind_Ok_inv in Hg as (bot_r & Hbr & Hg).
    apply bind_Ok_inv in Hg as (bot_g & Hbg & Hg).
    apply bind_Ok_inv in Hg as (bot_b & Hbb & Hg).
    apply bind_Ok_inv in Hg as (r & Hr & Hg).
    apply bind_Ok_inv in Hg as (g & Hgg & Hg).
    apply bind_Ok_inv in Hg as (b & Hb & Hg).
    injection Hg as <-.
    exists tx, ty, top_r, top_g, top_b, bot_r, bot_g, bot_b, r, g, b.
    by split_and!.
  - intros c0 c1 t v Hi. unfold interpolate in Hi.
    apply bind_Ok_inv in Hi as (d & Hd & Hi).
    apply bind_Ok_inv in Hi as (s & Hsum & Hi). by exists d, s.
  - apply int_of_truncates.
Qed.

(** At size 3 the gradient exists and ends in the bottom-right colour. *)
Lemma C2_full_gradient_bilinear_witness :
  ∃ im, Full.create_gradient_background 3 = Ok im ∧
        px im 2 2 = (55, 30, 75, 255).
Proof.
  destruct (C2_full_gradient_bilinear 3) as (im & Him & _ & _ & _ & _ & _ & _ & H & _).
  - lia.
  - exists im. split; [exact Him|exact H].
Defined.

(** C3: for every size of at least 2 the gradient of the fallback generator
    is produced; its row 0 has the top colour; every row whose fraction
    [y / (size - 1)] is at least the threshold 0.7 has the bottom colour;
    all pixels of a row are equal; and a row whose fraction is at most the
    threshold is interpolated between the two colours with that fraction
    divided by 0.7. *)
Theorem C3_fallback_gradient_rows size :
  2 ≤ size →
  ∃ im, Fallback.create_gradient_background size = Ok im ∧
    im_mode im = RGB ∧ im_width im = size ∧ im_height im = size ∧
    (∀ x, 0 ≤ x < size → px im x 0 = (57, 62, 62, 255)) ∧
    (∀ x y ty, 0 ≤ x < size → 0 ≤ y < size →
       truediv (Int y) (Int (size - 1)) = Ok (Float ty) →
       SFleb Fallback.gradient_end ty = true →
       px im x y = (34, 36, 43, 255)) ∧
    (∀ x x' y, 0 ≤ x < size → 0 ≤ x' < size → 0 ≤ y < size →
       px im x y = px im x' y) ∧
    (∀ x y ty, 0 ≤ x < size → 0 ≤ y < size →
       truediv (Int y) (Int (size - 1)) = Ok (Float ty) →
       SFleb ty Fallback.gradient_end = true →
       ∃ t r g b,
         truediv (Float ty) (Float Fallback.gradient_end) = Ok t ∧
         interpolate 57 34 t = Ok r ∧
         interpolate 62 36 t = Ok g ∧
         interpolate 62 43 t = Ok b ∧
         px im x y = (clip8 r, clip8 g, clip8 b, 255)).
Proof.
  intros Hs.
  destruct (fallback_gradient_spec size) as (im & Him & _ & Hm & Hw & Hh & Hpx);
    [lia|].
  exists im. split; [done|]. do 3 (split; [done|]). split_and!.
  - intros x Hx. destruct (Hpx x 0 Hx) as (c & Hc & ->); [lia|].
    rewrite row_color_top in Hc by lia. by injection Hc as <-.
  - intros x y ty Hx Hy Hty Hle. destruct (Hpx x y Hx Hy) as (c & Hc & ->).
    rewrite (row_color_bottom size y ty) in Hc;
      [|by rewrite fraction_truediv by lia|done].
    by injection Hc as <-.
  - intros x x' y Hx Hx' Hy.
    destruct (Hpx x y Hx Hy) as (c & Hc & ->).
    destruct (Hpx x' y Hx' Hy) as (c' & Hc' & ->). congruence.
  - intros x y ty Hx Hy Hty Hle. destruct (Hpx x y Hx Hy) as (c & Hc & ->).
    unfold Fallback.row_color in Hc.
    rewrite fraction_truediv, Hty, bind_Ok in Hc by lia.
    cbn [le to_float mbind result_bind] in Hc. rewrite Hle in Hc.
    apply bind_Ok_inv in Hc as (t & Ht & Hc).
    apply bind_Ok_inv in Hc as (r & Hr & Hc).
    apply bind_Ok_inv in Hc as (g & Hg & Hc).
    apply bind_Ok_inv in Hc as (b & Hb & Hc).
    injection Hc as <-. by exists t, r, g, b.
Qed.

(** At size 4 the gradient exists, with its first row in the top colour
    and its last row in the bottom colour. *)
Lemma C3_fallback_gradient_rows_witness :
  ∃ im, Fallback.create_gradient_background 4 = Ok im ∧
        px im 0 0 = (57, 62, 62, 255) ∧ px im 2 3 = (34, 36, 43, 255).
Proof.
  destruct (C3_fallback_gradient_rows 4) as (im & Him & _ & _ & _ & H0 & Hb & _).
  - lia.
  - exists im. split; [exact Him|]. split.
    + apply H0. lia.
    + apply (Hb 2 3 f1_0); [lia|lia|vm_compute; reflexivity|vm_compute; reflexivity].
Defined.

(** C4: when the size is at most 1 both gradient synthesizers take the
    fraction to be 0 and do not divide; for no size does either raise
    [ZeroDivisionError]; and for every size of at least 1 both return a
    raster. *)
Theorem C4_gradient_no_division_by_zero size :
  (size ≤ 1 → ∀ i, fraction i size = Ok (Int 0)) ∧
  ¬ raises ZeroDivisionError (Full.create_gradient_background size) ∧
  ¬ raises ZeroDivisionError (Fallback.create_gradient_background size) ∧
  (1 ≤ size →
   (∃ im, Full.create_gradient_background size = Ok im ∧
          im_width im = size ∧ im_height im = size) ∧
   (∃ im, Fallback.create_gradient_background size = Ok im ∧
          im_width im = size ∧ im_height im = size)).
Proof.
  split_and!.
  - intros Hs i. by apply fraction_degenerate.
  - apply full_gradient_no_zde.
  - apply fallback_gradient_no_zde.
  - intros Hs. split.
    + destruct (full_gradient_spec size) as (im & Him & _ & _ & Hw & Hh & _);
        [lia|]. by exists im.
    + destruct (fallback_gradient_spec size) as (im & Him & _ & _ & Hw & Hh & _);
        [lia|]. by exists im.
Qed.

(** At size 1 the fraction is 0 and both one-pixel gradients are produced. *)
Lemma C4_gradient_no_division_by_zero_witness :
  fraction 0 1 = Ok (Int 0) ∧
  (∃ im, Full.create_gradient_background 1 = Ok im ∧
         im_width im = 1 ∧ im_height im = 1) ∧
  (∃ im, Fallback.create_gradient_background 1 = Ok im ∧
         im_width im = 1 ∧ im_height im = 1).
Proof.
  destruct (C4_gradient_no_division_by_zero 1) as (Hf & _ & _ & Ht).
  split; [apply Hf; lia|apply Ht; lia].
Defined.

Section GlowClaims.
Context `{Kernels}.




End GlowClaims.




Lemma image_open_agree logo_path w1 w2 :
  fs w1 !! logo_path = fs w2 !! logo_path →
  (image_open logo_path w1).1 = (image_open logo_path w2).1.
Proof.
  intros Hl. unfold image_open, on_fs, read_at.
  assert (Hn : node_at (fs w1) logo_path = node_at (fs w2) logo_path)
    by (by destruct logo_path).
  rewrite Hn. destruct (node_at (fs w2) logo_path) as [[[im|j|b]|]|]; done.
Qed.

Section IconClaims.
Context `{Kernels}.


(** C9: [create_icon] of the full pipeline does not read its
    [shadow_path]: run with two shadow paths in two file trees that hold
    the same logo, it composes the same raster, and when both runs return
    they have saved the same image, the one composed from the logo. *)
Theorem C9_shadow_is_dead shadow1 shadow2 logo_path output_path size scale
    w1 w2 :
  fs w1 !! logo_path = fs w2 !! logo_path →
  Full.icon_raster (image_open logo_path w1).1 size scale
    = Full.icon_raster (image_open logo_path w2).1 size scale ∧
  ((Full.create_icon shadow1 logo_path output_path size scale w1).1
    = (Full.create_icon shadow2 logo_path output_path size scale w1).1) ∧
  ∀ w1' w2',
    Full.create_icon shadow1 logo_path output_path size scale w1 = (Ok (), w1') →
    Full.create_icon shadow2 logo_path output_path size scale w2 = (Ok (), w2') →
    ∃ img,
      Full.icon_raster (image_open logo_path w1).1 size scale = Ok img ∧
      fs w1' !! output_path = Some (File (FImage img)) ∧
      fs w2' !! output_path = Some (File (FImage img)).
Proof.
  intros Hl. split; [by rewrite (image_open_agree _ _ _ Hl)|]. split; [done|].
  intros w1' w2' H1 H2.
  pose proof (full_create_icon_outcome shadow1 logo_path output_path size
    scale w1) as Ho1.
  pose proof (full_create_icon_outcome shadow2 logo_path output_path size
    scale w2) as Ho2.
  rewrite H1 in Ho1. rewrite H2 in Ho2.
  destruct Ho1 as (img1 & Hr1 & Hfs1 & _).
  destruct Ho2 as (img2 & Hr2 & Hfs2 & _).
  rewrite <- (image_open_agree _ _ _ Hl), Hr1 in Hr2. injection Hr2 as <-.
  exists img1. by rewrite Hfs1, Hfs2, !lookup_insert_eq.
Qed.

End IconClaims.


(** With the sample kernels, the icon of size 2 composed in the sample
    checkout is the same with and without a shadow layer file. *)
Lemma C9_shadow_is_dead_witness :
  ∃ img,
    fs (@Full.create_icon sample_kernels
          ["repo"; "shadow_layer_converted.png"]
          ["repo"; "logo_layer_converted.png"] ["repo"; "icon.png"] 2 1
          checkout).2 !! ["repo"; "icon.png"] = Some (File (FImage img)) ∧
    fs (@Full.create_icon sample_kernels
          ["repo"; "shadow_layer_converted.png"]
          ["repo"; "logo_layer_converted.png"] ["repo"; "icon.png"] 2 1
          checkout_with_shadow).2 !! ["repo"; "icon.png"]
      = Some (File (FImage img)).
Proof.
  destruct (@C9_shadow_is_dead sample_kernels
    ["repo"; "shadow_layer_converted.png"] ["repo"; "shadow_layer_converted.png"]
    ["repo"; "logo_layer_converted.png"] ["repo"; "icon.png"] 2 1
    checkout checkout_with_shadow) as (_ & _ & Hsame).
  - vm_compute. reflexivity.
  - assert (Hok1 : (@Full.create_icon sample_kernels
      ["repo"; "shadow_layer_converted.png"]
      ["repo"; "logo_layer_converted.png"] ["repo"; "icon.png"] 2 1
      checkout).1 = Ok ()) by (vm_compute; reflexivity).
    assert (Hok2 : (@Full.create_icon sample_kernels
      ["repo"; "shadow_layer_converted.png"]
      ["repo"; "logo_layer_converted.png"] ["repo"; "icon.png"] 2 1
      checkout_with_shadow).1 = Ok ()) by (vm_compute; reflexivity).
    destruct (@Full.create_icon sample_kernels
      ["repo"; "shadow_layer_converted.png"]
      ["repo"; "logo_layer_converted.png"] ["repo"; "icon.png"] 2 1 checkout)
      as [[[]|e1] w1']; [|cbn in Hok1; discriminate Hok1].
    destruct (@Full.create_icon sample_kernels
      ["repo"; "shadow_layer_converted.png"]
      ["repo"; "logo_layer_converted.png"] ["repo"; "icon.png"] 2 1
      checkout_with_shadow)
      as [[[]|e2] w2']; [|cbn in Hok2; discriminate Hok2].
    destruct (Hsame w1' w2' eq_refl eq_refl) as (img & _ & H1 & H2).
    exists img. split; [exact H1|exact H2].
Defined.

Section MainClaims.
Context `{Kernels} `{Platform}.

(** C7: in both pipelines, when the logo does not exist [main] prints an
    error line last and returns 1 with the file tree as it found it: no
    directory was created and no file written. When the logo exists,
    [main] returns 0 unless an exception ends it. *)
Theorem C7_missing_logo_returns_one script_dir w :
  (fs w !! Full.logo_path_of script_dir = None →
     ∃ warnings,
       Full.main script_dir w =
         (Ok 1, mkWorld (fs w)
            (stdout w ++ warnings ++
             ["Error: Logo layer not found at "
                +:+ path_str (Full.logo_path_of script_dir)]))) ∧
  (is_Some (fs w !! Full.logo_path_of script_dir) →
     (Full.main script_dir w).1 = Ok 0 ∨
     ∃ e, (Full.main script_dir w).1 = Raise e) ∧
  (fs w !! Fallback.logo_path_of script_dir = None →
     Fallback.main script_dir w =
       (Ok 1, mkWorld (fs w)
          (stdout w ++
           ["Error: Logo not found at "
              +:+ path_str (Fallback.logo_path_of script_dir)]))) ∧
  (is_Some (fs w !! Fallback.logo_path_of script_dir) →
     (Fallback.main script_dir w).1 = Ok 0 ∨
     ∃ e, (Fallback.main script_dir w).1 = Raise e).
Proof.
  split_and!.
  - intros Hl. rewrite (full_main_no_logo script_dir w Hl). by eexists.
  - intros Hl. pose proof (full_main_logo script_dir w Hl) as Hz.
    unfold zero_or_raise in Hz. exact Hz.
  - intros Hl. exact (fallback_main_no_logo script_dir w Hl).
  - intros Hl. pose proof (fallback_main_logo script_dir w Hl) as Hz.
    unfold zero_or_raise in Hz. exact Hz.
Qed.


End MainClaims.

(** In an empty tree both scripts return 1 and leave the tree empty; in
    the sample checkout, where both logos exist, neither returns 1. *)
Lemma C7_missing_logo_returns_one_witness :
  (∃ warnings,
     @Full.main sample_kernels no_packer ["repo"] empty_world =
       (Ok 1, mkWorld (fs empty_world)
          (stdout empty_world ++ warnings ++
           ["Error: Logo layer not found at "
              +:+ path_str (Full.logo_path_of ["repo"])]))) ∧
  @Fallback.main sample_kernels ["repo"; "Scripts"] empty_world =
    (Ok 1, mkWorld (fs empty_world)
       (stdout empty_world ++
        ["Error: Logo not found at "
           +:+ path_str (Fallback.logo_path_of ["repo"; "Scripts"])])) ∧
  ((@Full.main sample_kernels no_packer ["repo"] checkout).1 = Ok 0 ∨
   ∃ e, (@Full.main sample_kernels no_packer ["repo"] checkout).1 = Raise e) ∧
  ((@Fallback.main sample_kernels ["repo"; "Scripts"] checkout).1 = Ok 0 ∨
   ∃ e, (@Fallback.main sample_kernels ["repo"; "Scripts"] checkout).1 = Raise e).
Proof.
  pose proof (@C7_missing_logo_returns_one sample_kernels no_packer ["repo"]
    empty_world) as (Hfull & _ & _ & _).
  pose proof (@C7_missing_logo_returns_one sample_kernels no_packer
    ["repo"; "Scripts"] empty_world) as (_ & _ & Hfb & _).
  pose proof (@C7_missing_logo_returns_one sample_kernels no_packer ["repo"]
    checkout) as (_ & Hfull' & _ & _).
  pose proof (@C7_missing_logo_returns_one sample_kernels no_packer
    ["repo"; "Scripts"] checkout) as (_ & _ & _ & Hfb').
  assert (H1 : fs empty_world !! Full.logo_path_of ["repo"] = None)
    by (vm_compute; reflexivity).
  assert (H2 : fs empty_world !! Fallback.logo_path_of ["repo"; "Scripts"] = None)
    by (vm_compute; reflexivity).
  assert (H3 : is_Some (fs checkout !! Full.logo_path_of ["repo"]))
    by (exists (File (FImage sample_logo)); vm_compute; reflexivity).
  assert (H4 : is_Some (fs checkout !! Fallback.logo_path_of ["repo"; "Scripts"]))
    by (exists (File (FImage sample_logo)); vm_compute; reflexivity).
  split; [exact (Hfull H1)|].
  split; [exact (Hfb H2)|].
  split; [exact (Hfull' H3)|exact (Hfb' H4)].
Defined.


End Claims.
